(** * Spot and mask analysis: matching, erosion, membership counting

    A shallow embedding of [Spot_And_Mask_Analysis_Updated.py].

    - 2D numpy arrays are lists of rows; indexing is fallible ([getitem]).
    - Labels, counts and pixel addresses are unbounded integers ([Z]).
    - Point coordinates are rationals ([Q]): every finite float is one, and
      the only operation the program applies to them, [round], is exact.
    - Calls into [roifile] may raise: they are results ([Ok] / [Raise]).
    - The directory is a listing of entry names; paths are strings built
      with POSIX [os.path.join]. The listing stands for what [glob] finds
      when the directory name is taken literally ([plain_directory]), and
      its entries are taken to exist (no dangling symbolic link). *)

From Stdlib Require Import String Ascii ZArith QArith Qround Qabs List Bool.
From Stdlib Require Import Lia Lqa Permutation Sorted DecimalString.
Import ListNotations.

Local Open Scope Z_scope.

(** ** Python and numpy primitives *)

(** [numpy.arange(lo, hi)] on integers. *)
Definition arange (lo hi : Z) : list Z :=
  map (fun i => lo + Z.of_nat i) (seq 0 (Z.to_nat (hi - lo))).

(** Python's [enumerate]. *)
Definition enumerate {A : Type} (l : list A) : list (Z * A) :=
  combine (arange 0 (Z.of_nat (length l))) l.

Definition array2 (A : Type) : Type := list (list A).

(** The [h] x [w] array whose entry at [(y, x)] is [f y x]. *)
Definition fromfunction {A : Type} (h w : Z) (f : Z -> Z -> A) : array2 A :=
  map (fun y => map (fun x => f y x) (arange 0 w)) (arange 0 h).

(** [a.shape] of a 2D array. *)
Definition shape {A : Type} (a : array2 A) : Z * Z :=
  (Z.of_nat (length a), Z.of_nat (length (hd [] a))).

(** Row lengths all agree: the invariant of a numpy array. *)
Definition rect {A : Type} (a : array2 A) : Prop :=
  Forall (fun row => length row = length (hd [] a)) a.

(** numpy index normalisation along an axis of length [n]: negative
    indices count from the end, anything else out of range is an
    [IndexError] ([None]). *)
Definition norm_index (n i : Z) : option nat :=
  if (0 <=? i) && (i <? n) then Some (Z.to_nat i)
  else if (- n <=? i) && (i <? 0) then Some (Z.to_nat (i + n))
  else None.

(** [a[y, x]]. *)
Definition getitem {A : Type} (a : array2 A) (y x : Z) : option A :=
  let '(h, w) := shape a in
  match norm_index h y, norm_index w x with
  | Some i, Some j => nth_error (nth i a []) j
  | _, _ => None
  end.

(** Python's [round(x)] on a float, then [int]: nearest integer, a tie
    going to the even neighbour. *)
Definition py_round (q : Q) : Z :=
  let f := Qfloor q in
  match Qcompare (q - inject_Z f) (1 # 2) with
  | Lt => f
  | Gt => f + 1
  | Eq => if Z.even f then f else f + 1
  end.

(** ** skimage.morphology *)

(** [morphology.disk(radius)]: the (2r+1) x (2r+1) footprint
    [X**2 + Y**2 <= radius**2] over [meshgrid(L, L)], [L = arange(-r, r+1)]. *)
Definition disk (radius : Z) : array2 bool :=
  let L := arange (- radius) (radius + 1) in
  map (fun y => map (fun x => x * x + y * y <=? radius * radius) L) L.

(** Offsets, relative to the footprint's centre [size // 2], of its set
    entries. *)
Definition footprint_offsets (fp : array2 bool) : list (Z * Z) :=
  let '(fh, fw) := shape fp in
  let cy := fh / 2 in
  let cx := fw / 2 in
  flat_map (fun '(i, row) =>
    flat_map (fun '(j, b) => if b : bool then [(i - cy, j - cx)] else [])
             (enumerate row))
    (enumerate fp).

Section Erosion.

(** Value read for a pixel outside the image ([border_value] of
    [scipy.ndimage.binary_erosion]; skimage passes [True]). Nothing proved
    below depends on it. *)
Variable border_value : bool.

Definition pixel_or_border (image : array2 bool) (y x : Z) : bool :=
  let '(h, w) := shape image in
  if (0 <=? y) && (y <? h) && (0 <=? x) && (x <? w)
  then nth (Z.to_nat x) (nth (Z.to_nat y) image []) false
  else border_value.

(** A pixel survives the erosion when every pixel under the footprint
    centred on it is set. *)
Definition eroded_pixel (image : array2 bool) (offs : list (Z * Z)) (y x : Z)
  : bool :=
  forallb (fun '(dy, dx) => pixel_or_border image (y + dy) (x + dx)) offs.

(** [morphology.binary_erosion(image, footprint)]. *)
Definition binary_erosion (image fp : array2 bool) : array2 bool :=
  let '(h, w) := shape image in
  fromfunction h w (eroded_pixel image (footprint_offsets fp)).

(** [erode_mask(mask, pixels)]. *)
Definition erode_mask (mask : array2 Z) (pixels : Z) : array2 bool :=
  let binary_mask := map (map (fun v => 0 <? v)) mask in
  let selem := disk pixels in
  let eroded := binary_erosion binary_mask selem in
  eroded.

End Erosion.

(** ** Parameters *)

Definition erosion_pixels : Z := 4.
Definition deep_erosion_pixels : Z := 20.

(** ** Python string and path primitives *)

(** [sub in s]. *)
Fixpoint str_in (sub s : string) : bool :=
  prefix sub s ||
  match s with
  | EmptyString => false
  | String _ s' => str_in sub s'
  end.

(** [s.find(sub)]: index of the first occurrence. *)
Fixpoint str_find (sub s : string) : option nat :=
  if prefix sub s then Some O
  else match s with
       | EmptyString => None
       | String _ s' => option_map S (str_find sub s')
       end.

(** [s.endswith(suffix)]. *)
Fixpoint ends_with (suffix s : string) : bool :=
  String.eqb s suffix ||
  match s with
  | EmptyString => false
  | String _ s' => ends_with suffix s'
  end.

(** [s.replace(old, new)] for a non-empty [old]: occurrences are found
    left to right and do not overlap; [skip] counts the characters of the
    occurrence just replaced that are still to be passed over. *)
Fixpoint replace_from (old new : string) (skip : nat) (s : string) : string :=
  match s with
  | EmptyString => EmptyString
  | String c s' =>
      match skip with
      | S k => replace_from old new k s'
      | O =>
          if prefix old s
          then String.append new (replace_from old new (String.length old - 1) s')
          else String c (replace_from old new O s')
      end
  end.

Definition str_replace (old new s : string) : string :=
  replace_from old new O s.

(** Everything after the first [sep] of a character list. *)
Fixpoint after_first (sep : ascii) (l : list ascii) : option (list ascii) :=
  match l with
  | [] => None
  | c :: l' => if Ascii.eqb c sep then Some l' else after_first sep l'
  end.

(** Cut up to [maxsplit] separator-delimited segments off the front of a
    reversed string. *)
Fixpoint cut_segments (sep : ascii) (maxsplit : nat) (r : list ascii)
  : list ascii :=
  match maxsplit with
  | O => r
  | S n =>
      match after_first sep r with
      | Some r' => cut_segments sep n r'
      | None => r
      end
  end.

(** [s.rsplit(sep, maxsplit)[0]] for a one-character separator. *)
Definition rsplit_head (sep : ascii) (maxsplit : nat) (s : string) : string :=
  string_of_list_ascii
    (rev (cut_segments sep maxsplit (rev (list_ascii_of_string s)))).

(** [os.path.join(a, b)] (POSIX). *)
Definition os_path_join (a b : string) : string :=
  if prefix "/" b then b
  else if String.eqb a "" then b
  else if ends_with "/" a then String.append a b
  else String.append a (String "/" b).

(** [os.path.basename(p)] (POSIX): what follows the last slash; [cur] is
    the segment read so far. *)
Fixpoint basename_from (cur p : string) : string :=
  match p with
  | EmptyString => cur
  | String c p' =>
      if Ascii.eqb c "/" then basename_from EmptyString p'
      else basename_from (String.append cur (String c EmptyString)) p'
  end.

Definition os_path_basename (p : string) : string :=
  basename_from EmptyString p.

(** Insertion into an ordered list, and [sorted]. *)
Fixpoint insert_sorted {A : Type} (leb : A -> A -> bool) (x : A) (l : list A)
  : list A :=
  match l with
  | [] => [x]
  | y :: l' => if leb x y then x :: l else y :: insert_sorted leb x l'
  end.

Definition sorted {A : Type} (leb : A -> A -> bool) (l : list A) : list A :=
  fold_right (insert_sorted leb) [] l.

(** [list(set(l))] for strings, in first-occurrence order (the order of a
    set is unspecified; the program sorts the result). *)
Definition list_set (l : list string) : list string :=
  nodup string_dec l.

(** ** The directory *)

Section Directory.

(** The directory scanned and the names of its entries. *)
Variable directory : string.
Variable listing : list string.

(** [os.path.exists(p)] for a path into [directory]: the path of an
    entry (entries are taken to exist). *)
Definition os_path_exists (p : string) : bool :=
  existsb (fun n => String.eqb p (os_path_join directory n)) listing.

(** [glob.glob(os.path.join(directory, "*" + suffix))] for a directory
    name that [glob] takes literally: the entries whose name ends in
    [suffix]; a leading-dot name is not matched by [*]. *)
Definition glob_suffix (suffix : string) : list string :=
  map (os_path_join directory)
      (filter (fun n => negb (prefix "." n) && ends_with suffix n) listing).

Record triplet : Type := {
  t_id : string;
  t_mask : string;
  t_c1_roi : string;
  t_c2_roi : string
}.

(** The candidate base identifiers of a mask file name, before
    de-duplication. *)
Definition candidates_of (filename : string) : list string :=
  (if str_in "_ch1_cells_mask.tif" filename
   then [str_replace "_ch1_cells_mask.tif" "" filename] else []) ++
  (if str_in "_cells_mask.tif" filename
   then [str_replace "_cells_mask.tif" "" filename] else []) ++
  (if str_in "_cell_mask.tif" filename
   then [str_replace "_cell_mask.tif" "" filename] else []) ++
  [rsplit_head "_" 2 filename].

(** [[unique.append(x) for x in candidates if x not in unique]]. *)
Definition unique_of (candidates : list string) : list string :=
  fold_left
    (fun unique x =>
       if existsb (String.eqb x) unique then unique else unique ++ [x])
    candidates [].

Definition unique_candidates (filename : string) : list string :=
  unique_of (candidates_of filename).

Definition c1_path_of (base_id : string) : string :=
  os_path_join directory (String.append base_id "_C1_ROIs.zip").

Definition c2_path_of (base_id : string) : string :=
  os_path_join directory (String.append base_id "_C2_ROIs.zip").

Definition both_exist (base_id : string) : bool :=
  os_path_exists (c1_path_of base_id) && os_path_exists (c2_path_of base_id).

(** The inner loop over the candidates, with its [break]. *)
Fixpoint first_match (mask_path : string) (candidates : list string)
  : option triplet :=
  match candidates with
  | [] => None
  | base_id :: rest =>
      if both_exist base_id
      then Some {| t_id := base_id; t_mask := mask_path;
                   t_c1_roi := c1_path_of base_id;
                   t_c2_roi := c2_path_of base_id |}
      else first_match mask_path rest
  end.

Definition warning_for (filename : string) : string :=
  String.append "Warning: Could not find ROI pairs for mask: " filename.

Definition possible_masks : list string :=
  sorted String.leb
    (list_set (glob_suffix "_cells_mask.tif" ++ glob_suffix "_cell_mask.tif")).

(** One iteration of the loop over the masks: the triplets found so far
    and the lines printed so far. *)
Definition match_step (acc : list triplet * list string) (mask_path : string)
  : list triplet * list string :=
  let filename := os_path_basename mask_path in
  match first_match mask_path (unique_candidates filename) with
  | Some t => (fst acc ++ [t], snd acc)
  | None => (fst acc, snd acc ++ [warning_for filename])
  end.

(** [find_file_triplets(directory)]: the triplets returned and the lines
    printed. *)
Definition find_file_triplets : list triplet * list string :=
  fold_left match_step possible_masks ([], []).

End Directory.

(** ** Cell counting *)

(** The elements of a sorted list that differ from their predecessor. *)
Fixpoint keep_changes (prev : Z) (l : list Z) : list Z :=
  match l with
  | [] => []
  | x :: l' =>
      if x =? prev then keep_changes prev l' else x :: keep_changes x l'
  end.

(** [np.unique(a)]: the sorted distinct values of the flattened array. *)
Definition np_unique (a : array2 Z) : list Z :=
  match sorted Z.leb (concat a) with
  | [] => []
  | x :: l => x :: keep_changes x l
  end.

(** [len(cell_ids[cell_ids != 0])] with [cell_ids = np.unique(mask)]. *)
Definition cell_count_of (mask : array2 Z) : Z :=
  let cell_ids := np_unique mask in
  Z.of_nat (length (filter (fun v => negb (v =? 0)) cell_ids)).

(** ** Coordinate extraction *)

Definition point : Type := (Q * Q)%type.

(** What a call into the ROI library does: return, or raise with a
    message. *)
Inductive result (A : Type) : Type :=
| Ok (a : A)
| Raise (e : string).
Arguments Ok {A} a.
Arguments Raise {A} e.

(** What [roi.coordinates()] returns: a bare pair (1D) or rows of pairs. *)
Inductive ndarray : Type :=
| Arr1 (p : point)
| Arr2 (ps : list point).

(** A decoded ROI, seen through its [coordinates()] method. *)
Record ImagejRoi : Type := { coordinates : result ndarray }.

(** What [ImagejRoi.fromfile] returns: one ROI or a list of them. *)
Inductive roi_file : Type :=
| Single (roi : ImagejRoi)
| Many (rois : list ImagejRoi).

(** [pts.reshape(1, -1)] when [pts.ndim == 1]. *)
Definition rows_of (pts : ndarray) : list point :=
  match pts with
  | Arr1 p => [p]
  | Arr2 ps => ps
  end.

(** The [for roi in rois] loop inside the [try]: the points appended to
    [coords], and the exception that interrupted the loop, if any. *)
Fixpoint collect (rois : list ImagejRoi) (coords : list point)
  : list point * option string :=
  match rois with
  | [] => (coords, None)
  | roi :: rest =>
      match coordinates roi with
      | Raise e => (coords, Some e)
      | Ok pts => collect rest (coords ++ rows_of pts)
      end
  end.

Definition error_line (roi_path e : string) : string :=
  String.append "Error reading ROI file "
    (String.append (os_path_basename roi_path) (String.append ": " e)).

Section Extractor.

(** [roifile.ImagejRoi.fromfile]. *)
Variable fromfile : string -> result roi_file.

(** [get_roi_coordinates(roi_path)]: the lines printed and the array
    returned. *)
Definition get_roi_coordinates (roi_path : string)
  : list string * list point :=
  match fromfile roi_path with
  | Raise e => ([error_line roi_path e], [])
  | Ok f =>
      let rois := match f with Single roi => [roi] | Many rois => rois end in
      match collect rois [] with
      | (coords, None) => ([], coords)
      | (coords, Some e) => ([error_line roi_path e], coords)
      end
  end.

End Extractor.

(** ** The main loop *)

Record counters : Type := {
  c2_inside : Z;
  c2_deep_inside : Z;
  c2_outside : Z
}.

Record SampleResult : Type := {
  Filename : string;
  Cell_Count : Z;
  Ch1_Spots : Z;
  Ch2_Spots_Total : Z;
  Ch2_Inside : Z;
  Ch2_Deep_Inside : Z;
  Ch2_Outside : Z
}.

(** [y, x = int(round(coord[0])), int(round(coord[1]))]. *)
Definition pixel_address (coord : point) : Z * Z :=
  (py_round (fst coord), py_round (snd coord)).

(** The body of [for coord in c2_coords]; [None] is an [IndexError]. *)
Definition classify_step (h w : Z) (eroded_std eroded_deep : array2 bool)
    (c : counters) (coord : point) : option counters :=
  let '(y, x) := pixel_address coord in
  if (0 <=? x) && (x <? w) && (0 <=? y) && (y <? h) then
    match getitem eroded_std y x with
    | None => None
    | Some s =>
        let c1 :=
          if s : bool
          then {| c2_inside := c2_inside c + 1;
                  c2_deep_inside := c2_deep_inside c;
                  c2_outside := c2_outside c |}
          else {| c2_inside := c2_inside c;
                  c2_deep_inside := c2_deep_inside c;
                  c2_outside := c2_outside c + 1 |} in
        match getitem eroded_deep y x with
        | None => None
        | Some d =>
            Some (if d : bool
                  then {| c2_inside := c2_inside c1;
                          c2_deep_inside := c2_deep_inside c1 + 1;
                          c2_outside := c2_outside c1 |}
                  else c1)
        end
    end
  else
    Some {| c2_inside := c2_inside c;
            c2_deep_inside := c2_deep_inside c;
            c2_outside := c2_outside c + 1 |}.

Fixpoint classify_points (h w : Z) (eroded_std eroded_deep : array2 bool)
    (c : counters) (c2_coords : list point) : option counters :=
  match c2_coords with
  | [] => Some c
  | coord :: rest =>
      match classify_step h w eroded_std eroded_deep c coord with
      | None => None
      | Some c' => classify_points h w eroded_std eroded_deep c' rest
      end
  end.

Section MainLoop.

Variable border_value : bool.

(** The radii of the shallow and of the deep interior. *)
Variable std_pixels deep_pixels : Z.

(** One iteration of [for t in triplets], from the mask and the two
    coordinate arrays that were read. *)
Definition process_sample (name : string) (mask : array2 Z)
    (c1_coords c2_coords : list point) : option SampleResult :=
  let cell_count := cell_count_of mask in
  let eroded_std := erode_mask border_value mask std_pixels in
  let eroded_deep := erode_mask border_value mask deep_pixels in
  let c1_total := Z.of_nat (length c1_coords) in
  let c2_total := Z.of_nat (length c2_coords) in
  let '(h, w) := shape mask in
  match classify_points h w eroded_std eroded_deep
          {| c2_inside := 0; c2_deep_inside := 0; c2_outside := 0 |}
          c2_coords with
  | None => None
  | Some c =>
      Some {| Filename := name;
              Cell_Count := cell_count;
              Ch1_Spots := c1_total;
              Ch2_Spots_Total := c2_total;
              Ch2_Inside := c2_inside c;
              Ch2_Deep_Inside := c2_deep_inside c;
              Ch2_Outside := c2_outside c |}
  end.

(** [tifffile.imread] and [roifile.ImagejRoi.fromfile]. *)
Variable imread : string -> array2 Z.
Variable fromfile : string -> result roi_file.

Definition process_triplet (t : triplet) : list string * option SampleResult :=
  let mask := imread (t_mask t) in
  let '(out1, c1_coords) := get_roi_coordinates fromfile (t_c1_roi t) in
  let '(out2, c2_coords) := get_roi_coordinates fromfile (t_c2_roi t) in
  (String.append "Processing " (String.append (t_id t) "...") :: out1 ++ out2,
   process_sample (t_id t) mask c1_coords c2_coords).

End MainLoop.

(** ** Spots per cell *)

(** Python's [a / b] on integers: [None] is a [ZeroDivisionError]. *)
Definition py_truediv (a b : Z) : option Q :=
  if b =? 0 then None else Some (inject_Z a / inject_Z b)%Q.

(** [row[col] / row['Cell_Count'] if row['Cell_Count'] > 0 else 0]. *)
Definition per_cell (spots cell_count : Z) : option Q :=
  if 0 <? cell_count then py_truediv spots cell_count else Some 0%Q.

Record Ratios : Type := {
  Ch1_per_Cell : Q;
  Ch2_Total_per_Cell : Q;
  Ch2_Inside_per_Cell : Q;
  Ch2_Deep_Inside_per_Cell : Q
}.

(** The four derived columns of a row. *)
Definition calculations (row : SampleResult) : option Ratios :=
  match per_cell (Ch1_Spots row) (Cell_Count row),
        per_cell (Ch2_Spots_Total row) (Cell_Count row),
        per_cell (Ch2_Inside row) (Cell_Count row),
        per_cell (Ch2_Deep_Inside row) (Cell_Count row) with
  | Some a, Some b, Some c, Some d =>
      Some {| Ch1_per_Cell := a; Ch2_Total_per_Cell := b;
              Ch2_Inside_per_Cell := c; Ch2_Deep_Inside_per_Cell := d |}
  | _, _, _, _ => None
  end.


(** ** The specification's notions *)

(** [z] is an integer nearest to [q], and the even one when [q] lies
    halfway between two integers. *)
Definition nearest_ties_even (q : Q) (z : Z) : Prop :=
  (Qabs (q - inject_Z z) <= 1 # 2)%Q /\
  ((Qabs (q - inject_Z z) == 1 # 2)%Q -> Z.even z = true).

(** The pixel address lies in [0, h) x [0, w). *)
Definition in_bounds (h w y x : Z) : bool :=
  (0 <=? x) && (x <? w) && (0 <=? y) && (y <? h).

(** The binarized mask as the specification words it: true exactly where
    the label is nonzero. *)
Definition binarized_nonzero (mask : array2 Z) : array2 bool :=
  map (map (fun v => negb (v =? 0))) mask.

(** A mask without negative labels. *)
Definition nonnegative (mask : array2 Z) : Prop :=
  Forall (Forall (fun v => 0 <= v)) mask.

(** Stripping a suffix: [Some b] exactly when [s] is [b] followed by
    [suffix]. *)
Fixpoint strip_suffix (suffix s : string) : option string :=
  if String.eqb s suffix then Some EmptyString
  else match s with
       | EmptyString => None
       | String c s' => option_map (String c) (strip_suffix suffix s')
       end.

Definition stripped (suffix s : string) : list string :=
  match strip_suffix suffix s with
  | Some b => [b]
  | None => []
  end.

(** A list without its repeats, in first-seen order. *)
Fixpoint first_seen (l : list string) : list string :=
  match l with
  | [] => []
  | x :: l' => x :: filter (fun y => negb (String.eqb y x)) (first_seen l')
  end.

(** The candidates as the specification words them: the three suffixes
    stripped in priority order, then the fallback, without repeats. *)
Definition spec_candidates (filename : string) : list string :=
  first_seen
    (stripped "_ch1_cells_mask.tif" filename ++
     stripped "_cells_mask.tif" filename ++
     stripped "_cell_mask.tif" filename ++
     [rsplit_head "_" 2 filename]).

(** A file name the mask enumeration recognizes. *)
Definition recognized (filename : string) : bool :=
  ends_with "_cells_mask.tif" filename || ends_with "_cell_mask.tif" filename.

(** [sub] occurs in [s] at its end or not at all. *)
Definition only_as_suffix (sub s : string) : bool :=
  match str_find sub s with
  | None => true
  | Some n => Nat.eqb (n + String.length sub) (String.length s)
  end.

(** The decoding of a source fails: opening it raises, or the
    [coordinates()] of one of its ROIs does. *)
Definition decode_fails (fromfile : string -> result roi_file)
    (roi_path : string) : Prop :=
  match fromfile roi_path with
  | Raise _ => True
  | Ok (Single roi) => exists e, coordinates roi = Raise e
  | Ok (Many rois) => exists roi e, In roi rois /\ coordinates roi = Raise e
  end.

(** The ROIs of a source that could be opened. *)
Definition rois_of (fromfile : string -> result roi_file) (roi_path : string)
  : list ImagejRoi :=
  match fromfile roi_path with
  | Raise _ => []
  | Ok (Single roi) => [roi]
  | Ok (Many rois) => rois
  end.

(** The points of the ROIs that precede the first one whose
    [coordinates()] raises. *)
Fixpoint points_before_failure (rois : list ImagejRoi) : list point :=
  match rois with
  | [] => []
  | roi :: rest =>
      match coordinates roi with
      | Raise _ => []
      | Ok pts => rows_of pts ++ points_before_failure rest
      end
  end.

(** The match of one mask. *)
Definition match_of (directory : string) (listing : list string)
    (mask_path : string) : option triplet :=
  first_match directory listing mask_path
    (unique_candidates (os_path_basename mask_path)).

(** The character [c] does not occur in [s]. *)
Definition lacks (c : ascii) (s : string) : Prop :=
  ~ In c (list_ascii_of_string s).

(** ** Group labels *)

(** [s.split(sep)] for a one-character separator; [cur] is the segment
    read so far. *)
Fixpoint split_from (sep : ascii) (cur s : string) : list string :=
  match s with
  | EmptyString => [cur]
  | String c s' =>
      if Ascii.eqb c sep then cur :: split_from sep EmptyString s'
      else split_from sep (String.append cur (String c EmptyString)) s'
  end.

Definition str_split (sep : ascii) (s : string) : list string :=
  split_from sep EmptyString s.

(** [sep.join(parts)]. *)
Fixpoint str_join (sep : string) (parts : list string) : string :=
  match parts with
  | [] => EmptyString
  | p :: rest =>
      match rest with
      | [] => p
      | _ :: _ => String.append p (String.append sep (str_join sep rest))
      end
  end.

(** ["_".join(x.split("_")[:2])]. *)
Definition group_of (x : string) : string :=
  str_join "_" (firstn 2 (str_split "_" x)).

Definition group_mapping : list (string * string) :=
  [("Saline_Gastro", "HSA-Saline"); ("DI_Gastro", "HSA_CLAAAV")]%string.

(** [Series.replace(mapping)] on one value: a value that is a key is
    replaced by what the key maps to. *)
Definition series_replace (mapping : list (string * string)) (v : string)
  : string :=
  match find (fun kv => String.eqb (fst kv) v) mapping with
  | Some kv => snd kv
  | None => v
  end.

(** The group label of a sample identifier. *)
Definition group_label (x : string) : string :=
  series_replace group_mapping (group_of x).

(** ** Inspecting the first ROI file *)

(** [str(n)] of a natural number. *)
Definition show_nat (n : nat) : string :=
  NilEmpty.string_of_uint (Nat.to_uint n).

(** [str(a.shape)] of what [coordinates()] returns. *)
Definition show_shape (pts : ndarray) : string :=
  match pts with
  | Arr1 _ => "(2,)"
  | Arr2 ps => ("(" ++ show_nat (length ps) ++ ", 2)")%string
  end.

Definition newline : string := String (ascii_of_nat 10) EmptyString.

Definition separator_line : string :=
  ("--------------------------------------------------" ++ newline)%string.

Section Inspect.

Variable fromfile : string -> result roi_file.

(** The texts of [roi.name] and of [roi.roitype]. *)
Variable roi_name : ImagejRoi -> string.
Variable roi_type : ImagejRoi -> string.

Definition roi_line (i : nat) (roi : ImagejRoi) (pts : ndarray) : string :=
  ("  ROI " ++ show_nat (i + 1) ++ ": Name='" ++ roi_name roi ++ "', Type="
   ++ roi_type roi ++ ", Coords Shape=" ++ show_shape pts)%string.

(** The loop [for i, roi in enumerate(rois[:5])], from index [i]: the lines
    printed, and the exception that interrupted it, if any. *)
Fixpoint inspect_rois (i : nat) (rois : list ImagejRoi)
  : list string * option string :=
  match rois with
  | [] => ([], None)
  | roi :: rest =>
      match coordinates roi with
      | Raise e => ([], Some e)
      | Ok pts =>
          let '(lines, err) := inspect_rois (S i) rest in
          (roi_line i roi pts :: lines, err)
      end
  end.

(** [inspect_first_roi(directory)]: the lines printed. *)
Definition inspect_first_roi (directory : string) (listing : list string)
  : list string :=
  match glob_suffix directory listing "_ROIs.zip" with
  | [] => ["No ROI zip files found for inspection."%string]
  | sample_file :: _ =>
      (("--- Inspecting Sample ROI File: " ++ os_path_basename sample_file
        ++ " ---")%string ::
       match fromfile sample_file with
       | Raise e => [("Error reading sample: " ++ e)%string]
       | Ok f =>
           let rois := match f with
                       | Single roi => [roi]
                       | Many rois => rois
                       end in
           ("Number of ROI entries in zip: " ++ show_nat (length rois))%string ::
           match inspect_rois 0 (firstn 5 rois) with
           | (lines, Some e) => lines ++ [("Error reading sample: " ++ e)%string]
           | (lines, None) =>
               lines ++
               (if (5 <? length rois)%nat
                then [("  ... and " ++ show_nat (length rois - 5)
                       ++ " more.")%string]
                else [])
           end
       end) ++ [separator_line]
  end.

End Inspect.

(** ** Notions for the further properties *)

(** The mask holds a label, a positive value, at [(y, x)]. *)
Definition foreground (mask : array2 Z) (y x : Z) : Prop :=
  exists v, getitem mask y x = Some v /\ 0 < v.

(** The rounded address of [coord] is on the image and the interior of
    radius [pixels] is true there. *)
Definition lands_in (border : bool) (mask : array2 Z) (pixels : Z)
    (coord : point) : bool :=
  let '(y, x) := pixel_address coord in
  in_bounds (fst (shape mask)) (snd (shape mask)) y x &&
  match getitem (erode_mask border mask pixels) y x with
  | Some b => b
  | None => false
  end.

(** How many elements of [l] satisfy [f]. *)
Definition count_if {A : Type} (f : A -> bool) (l : list A) : Z :=
  Z.of_nat (length (filter f l)).

(** The coordinate [q] rounds to an index of an axis of length [n]: it is
    at least -1/2, and below [n - 1/2], or equal to it when [n] is odd. *)
Definition on_axis (n : Z) (q : Q) : Prop :=
  (- (1 # 2) <= q)%Q /\
  ((q < inject_Z n - (1 # 2))%Q \/
   ((q == inject_Z n - (1 # 2))%Q /\ Z.odd n = true)).

(** The points of all the ROIs, in order, a ROI whose [coordinates()]
    raises contributing none. *)
Definition all_rows (rois : list ImagejRoi) : list point :=
  flat_map (fun roi => match coordinates roi with
                       | Ok pts => rows_of pts
                       | Raise _ => []
                       end) rois.

(** [glob.has_magic]: the name holds a star, a question mark or an
    opening bracket. *)
Definition has_magic (s : string) : bool :=
  existsb (fun c => Ascii.eqb c "*" || Ascii.eqb c "?" || Ascii.eqb c "[")
    (list_ascii_of_string s).

(** A directory name that [glob] takes literally and joins the way
    [os.path.join] does: no metacharacter in it, no double slash at its
    end. *)
Definition plain_directory (directory : string) : bool :=
  negb (has_magic directory) && negb (ends_with "//" directory).

(** The mask has a match. *)
Definition matched (directory : string) (listing : list string)
    (mask_path : string) : bool :=
  match match_of directory listing mask_path with
  | Some _ => true
  | None => false
  end.

(** What [coordinates()] returned, for a ROI on which it does not raise. *)
Definition decoded (roi : ImagejRoi) : ndarray :=
  match coordinates roi with
  | Ok pts => pts
  | Raise _ => Arr2 []
  end.

(** * Proofs *)

(** ** Rounding *)

Lemma floor_bounds (q : Q) :
  (inject_Z (Qfloor q) <= q)%Q /\ (q < inject_Z (Qfloor q) + 1)%Q.
Proof.
  split.
  - apply Qfloor_le.
  - pose proof (Qlt_floor q) as H.
    rewrite inject_Z_plus in H. exact H.
Qed.

Lemma Qabs_le_iff (x y : Q) : (Qabs x <= y)%Q <-> (- y <= x /\ x <= y)%Q.
Proof. apply Qabs_Qle_condition. Qed.

Lemma Qabs_cases (x : Q) :
  ((0 <= x)%Q /\ (Qabs x == x)%Q) \/ ((x <= 0)%Q /\ (Qabs x == - x)%Q).
Proof.
  destruct (Qlt_le_dec x 0) as [H | H].
  - right. split; [lra |]. apply Qabs_neg. lra.
  - left. split; [exact H |]. apply Qabs_pos. exact H.
Qed.

Lemma py_round_nearest (q : Q) : nearest_ties_even q (py_round q).
Proof.
  unfold nearest_ties_even, py_round.
  destruct (floor_bounds q) as [Hlo Hhi].
  set (f := Qfloor q) in *.
  destruct (Qcompare_spec (q - inject_Z f) (1 # 2)) as [He | Hl | Hg].
  - destruct (Z.even f) eqn:Ev.
    + split; [apply Qabs_le_iff; lra | intros _; exact Ev].
    + rewrite inject_Z_plus. split.
      * apply Qabs_le_iff. change (inject_Z 1) with 1%Q. lra.
      * intros _. replace (f + 1) with (Z.succ f) by lia.
        rewrite Z.even_succ, <- Z.negb_even, Ev. reflexivity.
  - split; [apply Qabs_le_iff; lra |].
    intros Habs. destruct (Qabs_cases (q - inject_Z f)) as [[_ E] | [_ E]];
      rewrite E in Habs; lra.
  - rewrite inject_Z_plus. change (inject_Z 1) with 1%Q. split.
    + apply Qabs_le_iff. lra.
    + intros Habs.
      destruct (Qabs_cases (q - (inject_Z f + 1))) as [[_ E] | [_ E]];
        rewrite E in Habs; lra.
Qed.

Lemma Qabs_half (x : Q) :
  (x == 1 # 2)%Q \/ (x == - (1 # 2))%Q -> (Qabs x == 1 # 2)%Q.
Proof.
  intros [H | H].
  - rewrite Qabs_pos; lra.
  - rewrite Qabs_neg; lra.
Qed.

Lemma nearest_ties_even_unique (q : Q) (z z' : Z) :
  nearest_ties_even q z -> nearest_ties_even q z' -> z = z'.
Proof.
  intros [Hz Ez] [Hz' Ez'].
  apply Qabs_le_iff in Hz. apply Qabs_le_iff in Hz'.
  assert (Hle : z <= z' + 1).
  { rewrite Zle_Qle, inject_Z_plus. change (inject_Z 1) with 1%Q. lra. }
  assert (Hge : z' <= z + 1).
  { rewrite Zle_Qle, inject_Z_plus. change (inject_Z 1) with 1%Q. lra. }
  destruct (Z.eq_dec z z') as [E | N]; [exact E | exfalso].
  assert (Hc : z = z' + 1 \/ z' = z + 1) by lia.
  destruct Hc as [Hc | Hc]; subst.
  - rewrite inject_Z_plus in *. change (inject_Z 1) with 1%Q in *.
    assert (E1 : Z.even (z' + 1) = true) by (apply Ez, Qabs_half; right; lra).
    assert (E2 : Z.even z' = true) by (apply Ez', Qabs_half; left; lra).
    replace (z' + 1) with (Z.succ z') in E1 by lia.
    rewrite Z.even_succ, <- Z.negb_even, E2 in E1. discriminate.
  - rewrite inject_Z_plus in *. change (inject_Z 1) with 1%Q in *.
    assert (E1 : Z.even (z + 1) = true) by (apply Ez', Qabs_half; right; lra).
    assert (E2 : Z.even z = true) by (apply Ez, Qabs_half; left; lra).
    replace (z + 1) with (Z.succ z) in E1 by lia.
    rewrite Z.even_succ, <- Z.negb_even, E2 in E1. discriminate.
Qed.

Lemma nearest_ties_even_compat (q q' : Q) (z : Z) :
  (q == q')%Q -> nearest_ties_even q z -> nearest_ties_even q' z.
Proof.
  intros E [H1 H2]. split.
  - rewrite <- E. exact H1.
  - intros H. apply H2. rewrite E. exact H.
Qed.

(** C8. Both components of a coordinate are rounded by the one rule
    "nearest integer, a tie to the even neighbour": the pixel address is
    the only pair of integers that rule allows, so a coordinate on a
    half-integer boundary resolves to [k] when [k] is even and to [k + 1]
    when it is odd, and equal coordinates always give the same address. *)
Theorem pixel_address_ties_even (coord : point) :
  nearest_ties_even (fst coord) (fst (pixel_address coord)) /\
  nearest_ties_even (snd coord) (snd (pixel_address coord)) /\
  (forall y x : Z,
      nearest_ties_even (fst coord) y -> nearest_ties_even (snd coord) x ->
      pixel_address coord = (y, x)) /\
  (forall coord' : point,
      (fst coord == fst coord')%Q -> (snd coord == snd coord')%Q ->
      pixel_address coord' = pixel_address coord) /\
  (forall k : Z,
      py_round (inject_Z k + (1 # 2)) = if Z.even k then k else k + 1).
Proof.
  repeat split.
  - apply py_round_nearest.
  - apply py_round_nearest.
  - apply py_round_nearest.
  - apply py_round_nearest.
  - intros y x Hy Hx. unfold pixel_address. f_equal.
    + apply (nearest_ties_even_unique (fst coord)); [apply py_round_nearest | exact Hy].
    + apply (nearest_ties_even_unique (snd coord)); [apply py_round_nearest | exact Hx].
  - intros coord' Ey Ex. unfold pixel_address. f_equal.
    + apply (nearest_ties_even_unique (fst coord')); [apply py_round_nearest |].
      apply (nearest_ties_even_compat (fst coord)); [exact Ey | apply py_round_nearest].
    + apply (nearest_ties_even_unique (snd coord')); [apply py_round_nearest |].
      apply (nearest_ties_even_compat (snd coord)); [exact Ex | apply py_round_nearest].
  - intros k. symmetry.
    apply (nearest_ties_even_unique (inject_Z k + (1 # 2))); [| apply py_round_nearest].
    destruct (Z.even k) eqn:Ev; split.
    + apply Qabs_le_iff. lra.
    + intros _. exact Ev.
    + apply Qabs_le_iff. rewrite inject_Z_plus. change (inject_Z 1) with 1%Q. lra.
    + intros _. replace (k + 1) with (Z.succ k) by lia.
      rewrite Z.even_succ, <- Z.negb_even, Ev. reflexivity.
Qed.

(** ** Spots per cell *)

Lemma per_cell_value (spots cell_count : Z) :
  per_cell spots cell_count =
  Some (if 0 <? cell_count
        then (inject_Z spots / inject_Z cell_count)%Q else 0%Q).
Proof.
  unfold per_cell, py_truediv.
  destruct (0 <? cell_count) eqn:Hpos; [| reflexivity].
  apply Z.ltb_lt in Hpos.
  destruct (cell_count =? 0) eqn:Hz; [| reflexivity].
  apply Z.eqb_eq in Hz. lia.
Qed.

(** C9. The four per-cell ratios of a row are always computed, without a
    division error: each is 0 when the cell count is 0, and the count
    divided by the cell count when the cell count is positive. *)
Theorem per_cell_ratios (row : SampleResult) :
  exists r : Ratios,
    calculations row = Some r /\
    (Cell_Count row = 0 ->
     Ch1_per_Cell r = 0%Q /\ Ch2_Total_per_Cell r = 0%Q /\
     Ch2_Inside_per_Cell r = 0%Q /\ Ch2_Deep_Inside_per_Cell r = 0%Q) /\
    (0 < Cell_Count row ->
     Ch1_per_Cell r = (inject_Z (Ch1_Spots row) / inject_Z (Cell_Count row))%Q /\
     Ch2_Total_per_Cell r =
       (inject_Z (Ch2_Spots_Total row) / inject_Z (Cell_Count row))%Q /\
     Ch2_Inside_per_Cell r =
       (inject_Z (Ch2_Inside row) / inject_Z (Cell_Count row))%Q /\
     Ch2_Deep_Inside_per_Cell r =
       (inject_Z (Ch2_Deep_Inside row) / inject_Z (Cell_Count row))%Q).
Proof.
  unfold calculations. rewrite !per_cell_value.
  eexists. split; [reflexivity |]. cbn [Ch1_per_Cell Ch2_Total_per_Cell
    Ch2_Inside_per_Cell Ch2_Deep_Inside_per_Cell].
  split; intros H.
  - rewrite H. cbn. repeat split; reflexivity.
  - apply Z.ltb_lt in H. rewrite H. repeat split; reflexivity.
Qed.

(** ** Arrays *)

Lemma arange_length (lo hi : Z) : length (arange lo hi) = Z.to_nat (hi - lo).
Proof. unfold arange. rewrite length_map, length_seq. reflexivity. Qed.

Lemma In_arange (lo hi v : Z) : In v (arange lo hi) <-> lo <= v < hi.
Proof.
  unfold arange. rewrite in_map_iff. split.
  - intros [i [E Hi]]. apply in_seq in Hi. lia.
  - intros H. exists (Z.to_nat (v - lo)). split; [lia | apply in_seq; lia].
Qed.

Lemma nth_error_arange (lo hi : Z) (k : nat) :
  nth_error (arange lo hi) k =
  if (k <? Z.to_nat (hi - lo))%nat then Some (lo + Z.of_nat k) else None.
Proof.
  unfold arange. rewrite nth_error_map, nth_error_seq.
  destruct (k <? Z.to_nat (hi - lo))%nat; reflexivity.
Qed.

Lemma nth_error_arange_lt (lo hi : Z) (k : nat) :
  (k < Z.to_nat (hi - lo))%nat ->
  nth_error (arange lo hi) k = Some (lo + Z.of_nat k).
Proof.
  intros H. rewrite nth_error_arange.
  apply Nat.ltb_lt in H. rewrite H. reflexivity.
Qed.

Lemma In_combine_seq {A : Type} (l : list A) (s : nat) (i : Z) (x : A) :
  In (i, x) (combine (map (fun k => 0 + Z.of_nat k) (seq s (length l))) l) <->
  exists k : nat, i = Z.of_nat (s + k) /\ nth_error l k = Some x.
Proof.
  revert s. induction l as [| a l IH]; intros s; cbn [length seq map combine In].
  - split; [intros [] | intros [k [_ H]]]. destruct k; discriminate.
  - rewrite IH. split.
    + intros [E | [k [E H]]].
      * inversion E; subst. exists O. split; [lia | reflexivity].
      * exists (S k). split; [lia | exact H].
    + intros [[| k] [E H]].
      * left. cbn in H. inversion H; subst. f_equal. lia.
      * right. exists k. split; [lia | exact H].
Qed.

Lemma In_enumerate {A : Type} (l : list A) (i : Z) (x : A) :
  In (i, x) (enumerate l) <->
  exists k : nat, i = Z.of_nat k /\ nth_error l k = Some x.
Proof.
  unfold enumerate, arange.
  replace (Z.to_nat (Z.of_nat (length l) - 0)) with (length l) by lia.
  apply In_combine_seq.
Qed.

Lemma In_footprint_offsets (fp : array2 bool) (dy dx : Z) :
  In (dy, dx) (footprint_offsets fp) <->
  exists (i j : nat) (row : list bool),
    nth_error fp i = Some row /\ nth_error row j = Some true /\
    dy = Z.of_nat i - fst (shape fp) / 2 /\
    dx = Z.of_nat j - snd (shape fp) / 2.
Proof.
  unfold footprint_offsets. destruct (shape fp) as [fh fw]. cbn [fst snd].
  rewrite in_flat_map. split.
  - intros [[i row] [Hrow Hin]]. apply in_flat_map in Hin.
    destruct Hin as [[j b] [Hb Hin]].
    apply In_enumerate in Hrow. destruct Hrow as [ki [Ei Hi]].
    apply In_enumerate in Hb. destruct Hb as [kj [Ej Hj]].
    destruct b; [| destruct Hin].
    destruct Hin as [E | []]. inversion E; subst.
    exists ki, kj, row. auto.
  - intros (i & j & row & Hi & Hj & Ey & Ex).
    exists (Z.of_nat i, row). split.
    + apply In_enumerate. exists i. auto.
    + apply in_flat_map. exists (Z.of_nat j, true). split.
      * apply In_enumerate. exists j. auto.
      * left. subst. reflexivity.
Qed.

Lemma shape_disk (r : Z) : 0 <= r -> shape (disk r) = (2 * r + 1, 2 * r + 1).
Proof.
  intros Hr. unfold shape, disk.
  assert (Hlen : length (arange (- r) (r + 1)) = Z.to_nat (2 * r + 1)).
  { rewrite arange_length. f_equal. lia. }
  set (F := fun y : Z => map (fun x : Z => x * x + y * y <=? r * r)
                           (arange (- r) (r + 1))).
  assert (HF : forall y, length (F y) = Z.to_nat (2 * r + 1)).
  { intros y. unfold F. rewrite length_map. exact Hlen. }
  clearbody F. rewrite length_map, Hlen.
  destruct (arange (- r) (r + 1)) as [| a L].
  - cbn [length] in Hlen. lia.
  - cbn [map hd]. rewrite HF. f_equal; lia.
Qed.

Lemma In_disk_offsets (r dy dx : Z) :
  0 <= r ->
  (In (dy, dx) (footprint_offsets (disk r)) <->
   - r <= dy <= r /\ - r <= dx <= r /\ dx * dx + dy * dy <= r * r).
Proof.
  intros Hr. rewrite In_footprint_offsets, shape_disk by exact Hr.
  cbn [fst snd].
  replace ((2 * r + 1) / 2) with r by (apply Z.div_unique with 1; lia).
  unfold disk. split.
  - intros (i & j & row & Hi & Hj & Ey & Ex).
    rewrite nth_error_map, nth_error_arange in Hi.
    destruct (i <? Z.to_nat (r + 1 - - r))%nat eqn:Li; [| discriminate].
    cbn in Hi. inversion Hi; subst row. clear Hi.
    rewrite nth_error_map, nth_error_arange in Hj.
    destruct (j <? Z.to_nat (r + 1 - - r))%nat eqn:Lj; [| discriminate].
    cbn in Hj. inversion Hj as [Hb]. clear Hj.
    apply Nat.ltb_lt in Li. apply Nat.ltb_lt in Lj.
    apply Z.leb_le in Hb. subst. lia.
  - intros (Hy & Hx & Hd).
    exists (Z.to_nat (dy + r)), (Z.to_nat (dx + r)).
    eexists. split; [| split; [| lia]].
    + rewrite nth_error_map, nth_error_arange_lt by lia. reflexivity.
    + rewrite nth_error_map, nth_error_arange_lt by lia.
      cbn [option_map]. f_equal. apply Z.leb_le.
      replace (- r + Z.of_nat (Z.to_nat (dx + r))) with dx by lia.
      replace (- r + Z.of_nat (Z.to_nat (dy + r))) with dy by lia. exact Hd.
Qed.

Lemma norm_index_bound (n i : Z) (k : nat) :
  norm_index n i = Some k -> (k < Z.to_nat n)%nat.
Proof.
  unfold norm_index.
  destruct ((0 <=? i) && (i <? n)) eqn:E1.
  - intros H. inversion H; subst. apply andb_true_iff in E1.
    destruct E1 as [H1 H2]. apply Z.leb_le in H1. apply Z.ltb_lt in H2. lia.
  - destruct ((- n <=? i) && (i <? 0)) eqn:E2; [| discriminate].
    intros H. inversion H; subst. apply andb_true_iff in E2.
    destruct E2 as [H1 H2]. apply Z.leb_le in H1. apply Z.ltb_lt in H2. lia.
Qed.

Lemma norm_index_in_range (n i : Z) :
  0 <= i < n -> norm_index n i = Some (Z.to_nat i).
Proof.
  intros H. unfold norm_index.
  replace (0 <=? i) with true by (symmetry; apply Z.leb_le; lia).
  replace (i <? n) with true by (symmetry; apply Z.ltb_lt; lia).
  reflexivity.
Qed.

Lemma shape_fromfunction {A : Type} (h w : Z) (f : Z -> Z -> A) :
  0 <= h -> 0 <= w ->
  shape (fromfunction h w f) = (h, if h =? 0 then 0 else w).
Proof.
  intros Hh Hw. unfold shape, fromfunction.
  rewrite length_map, arange_length.
  destruct (h =? 0) eqn:E.
  - apply Z.eqb_eq in E. subst. reflexivity.
  - apply Z.eqb_neq in E.
    assert (Hlen : length (arange 0 h) = Z.to_nat h)
      by (rewrite arange_length; f_equal; lia).
    destruct (arange 0 h) as [| a L].
    + cbn [length] in Hlen. lia.
    + cbn [map hd]. rewrite length_map, arange_length. f_equal; lia.
Qed.

Lemma nth_fromfunction {A : Type} (h w : Z) (f : Z -> Z -> A) (i : nat) :
  (i < Z.to_nat h)%nat ->
  nth i (fromfunction h w f) [] = map (fun x => f (Z.of_nat i) x) (arange 0 w).
Proof.
  intros Hi. unfold fromfunction. apply nth_error_nth.
  rewrite nth_error_map, nth_error_arange_lt by lia. reflexivity.
Qed.

Lemma getitem_fromfunction {A : Type} (h w : Z) (f : Z -> Z -> A) (y x : Z) :
  0 <= h -> 0 <= w ->
  getitem (fromfunction h w f) y x =
  match norm_index h y, norm_index w x with
  | Some i, Some j => Some (f (Z.of_nat i) (Z.of_nat j))
  | _, _ => None
  end.
Proof.
  intros Hh Hw. unfold getitem. rewrite shape_fromfunction by assumption.
  destruct (norm_index h y) as [i |] eqn:Ei; [| reflexivity].
  pose proof (norm_index_bound _ _ _ Ei) as Bi.
  replace (h =? 0) with false by (symmetry; apply Z.eqb_neq; lia).
  destruct (norm_index w x) as [j |] eqn:Ej; [| reflexivity].
  pose proof (norm_index_bound _ _ _ Ej) as Bj.
  rewrite nth_fromfunction by exact Bi.
  rewrite nth_error_map, nth_error_arange_lt by lia. reflexivity.
Qed.

Lemma shape_map_map {A B : Type} (f : A -> B) (a : array2 A) :
  shape (map (map f) a) = shape a.
Proof.
  unfold shape. rewrite length_map. destruct a as [| row a]; [reflexivity |].
  cbn [map hd]. rewrite length_map. reflexivity.
Qed.

Lemma shape_nonneg {A : Type} (a : array2 A) :
  0 <= fst (shape a) /\ 0 <= snd (shape a).
Proof. unfold shape. cbn [fst snd]. lia. Qed.

(** ** Erosion *)

Lemma getitem_erode_mask (border : bool) (mask : array2 Z) (r y x : Z) :
  getitem (erode_mask border mask r) y x =
  match norm_index (fst (shape mask)) y, norm_index (snd (shape mask)) x with
  | Some i, Some j =>
      Some (eroded_pixel border (map (map (fun v => 0 <? v)) mask)
              (footprint_offsets (disk r)) (Z.of_nat i) (Z.of_nat j))
  | _, _ => None
  end.
Proof.
  unfold erode_mask, binary_erosion.
  rewrite shape_map_map.
  destruct (shape_nonneg mask) as [Hh Hw].
  destruct (shape mask) as [h w]. cbn [fst snd] in *.
  apply getitem_fromfunction; assumption.
Qed.

Lemma disk_offsets_incl (r1 r2 : Z) :
  0 <= r1 -> r1 <= r2 ->
  incl (footprint_offsets (disk r1)) (footprint_offsets (disk r2)).
Proof.
  intros H1 H2 [dy dx] Hin.
  apply In_disk_offsets in Hin; [| exact H1].
  apply In_disk_offsets; [lia |]. nia.
Qed.

Lemma eroded_pixel_incl (border : bool) (image : array2 bool)
    (offs1 offs2 : list (Z * Z)) (y x : Z) :
  incl offs1 offs2 ->
  eroded_pixel border image offs2 y x = true ->
  eroded_pixel border image offs1 y x = true.
Proof.
  unfold eroded_pixel. intros Hincl H.
  rewrite forallb_forall in *. intros d Hd. apply H, Hincl, Hd.
Qed.

(** C2. For radii [0 <= r1 < r2], the interior at radius [r2] has the
    shape of the interior at radius [r1], and every pixel that is true in
    it is true in the interior at radius [r1]. *)
Theorem erode_mask_radius_subset (border : bool) (mask : array2 Z)
    (r1 r2 y x : Z) :
  0 <= r1 -> r1 < r2 ->
  shape (erode_mask border mask r2) = shape (erode_mask border mask r1) /\
  (getitem (erode_mask border mask r2) y x = Some true ->
   getitem (erode_mask border mask r1) y x = Some true).
Proof.
  intros H1 H2. split.
  - unfold erode_mask, binary_erosion. rewrite shape_map_map.
    destruct (shape_nonneg mask) as [Hh Hw].
    destruct (shape mask) as [h w]. cbn [fst snd] in *.
    rewrite !shape_fromfunction by assumption. reflexivity.
  - rewrite !getitem_erode_mask.
    destruct (norm_index (fst (shape mask)) y); [| discriminate].
    destruct (norm_index (snd (shape mask)) x); [| discriminate].
    intros H. inversion H as [Hp]. f_equal. rewrite Hp.
    apply (eroded_pixel_incl border _ _ (footprint_offsets (disk r2)));
      [apply disk_offsets_incl; lia | exact Hp].
Qed.

(** The subset theorem on a 3 x 3 cell in a 5 x 5 field, radii 0 and 1. *)
Lemma erode_mask_radius_subset_witness :
  shape (erode_mask false [[0; 0; 0; 0; 0]; [0; 3; 3; 3; 0]; [0; 3; 3; 3; 0];
                           [0; 3; 3; 3; 0]; [0; 0; 0; 0; 0]] 1) =
  shape (erode_mask false [[0; 0; 0; 0; 0]; [0; 3; 3; 3; 0]; [0; 3; 3; 3; 0];
                           [0; 3; 3; 3; 0]; [0; 0; 0; 0; 0]] 0) /\
  (getitem (erode_mask false [[0; 0; 0; 0; 0]; [0; 3; 3; 3; 0]; [0; 3; 3; 3; 0];
                              [0; 3; 3; 3; 0]; [0; 0; 0; 0; 0]] 1) 2 2
   = Some true ->
   getitem (erode_mask false [[0; 0; 0; 0; 0]; [0; 3; 3; 3; 0]; [0; 3; 3; 3; 0];
                              [0; 3; 3; 3; 0]; [0; 0; 0; 0; 0]] 0) 2 2
   = Some true).
Proof.
  apply (erode_mask_radius_subset false
           [[0; 0; 0; 0; 0]; [0; 3; 3; 3; 0]; [0; 3; 3; 3; 0];
            [0; 3; 3; 3; 0]; [0; 0; 0; 0; 0]] 0 1 2 2); lia.
Defined.

Lemma map_arange_nth {A : Type} (l : list A) (d : A) (g : Z -> A) :
  (forall k : nat, (k < length l)%nat -> g (Z.of_nat k) = nth k l d) ->
  map g (arange 0 (Z.of_nat (length l))) = l.
Proof.
  intros Hg. apply (nth_ext _ _ (g 0) d).
  - rewrite length_map, arange_length. lia.
  - intros n Hn. rewrite length_map, arange_length in Hn.
    rewrite map_nth.
    assert (Hnth : nth n (arange 0 (Z.of_nat (length l))) 0 = Z.of_nat n).
    { apply nth_error_nth. rewrite nth_error_arange_lt by lia.
      reflexivity. }
    rewrite Hnth. apply Hg. lia.
Qed.

Lemma rect_row_length {A : Type} (a : array2 A) (k : nat) :
  rect a -> (k < length a)%nat -> length (nth k a []) = length (hd [] a).
Proof.
  intros Hr Hk. unfold rect in Hr. rewrite Forall_forall in Hr.
  apply Hr, nth_In, Hk.
Qed.

Lemma fromfunction_id {A : Type} (a : array2 A) (d : A) (f : Z -> Z -> A) :
  rect a ->
  (forall i j : nat,
      (i < length a)%nat -> (j < length (hd [] a))%nat ->
      f (Z.of_nat i) (Z.of_nat j) = nth j (nth i a []) d) ->
  fromfunction (fst (shape a)) (snd (shape a)) f = a.
Proof.
  intros Hr Hf. unfold fromfunction, shape. cbn [fst snd].
  apply (map_arange_nth a []). intros i Hi.
  rewrite <- (rect_row_length a i Hr Hi).
  apply (map_arange_nth (nth i a []) d). intros j Hj.
  apply Hf; [exact Hi |]. rewrite <- (rect_row_length a i Hr Hi). exact Hj.
Qed.

Lemma pixel_or_border_in_range (border : bool) (image : array2 bool)
    (i j : nat) :
  (i < length image)%nat -> (j < length (hd [] image))%nat ->
  pixel_or_border border image (Z.of_nat i) (Z.of_nat j) =
  nth j (nth i image []) false.
Proof.
  intros Hi Hj. unfold pixel_or_border, shape.
  replace (0 <=? Z.of_nat i) with true by (symmetry; apply Z.leb_le; lia).
  replace (Z.of_nat i <? Z.of_nat (length image)) with true
    by (symmetry; apply Z.ltb_lt; lia).
  replace (0 <=? Z.of_nat j) with true by (symmetry; apply Z.leb_le; lia).
  replace (Z.of_nat j <? Z.of_nat (length (hd [] image))) with true
    by (symmetry; apply Z.ltb_lt; lia).
  cbn [andb]. rewrite !Nat2Z.id. reflexivity.
Qed.

Lemma rect_map_map {A B : Type} (f : A -> B) (a : array2 A) :
  rect a -> rect (map (map f) a).
Proof.
  unfold rect. intros H. rewrite Forall_forall in *.
  intros row Hrow. apply in_map_iff in Hrow. destruct Hrow as [r0 [E Hin]].
  subst. rewrite length_map, (H r0 Hin).
  destruct a as [| r a]; [destruct Hin |]. cbn [map hd].
  rewrite length_map. reflexivity.
Qed.

Lemma binarize_nonnegative (mask : array2 Z) :
  nonnegative mask -> map (map (fun v => 0 <? v)) mask = binarized_nonzero mask.
Proof.
  unfold nonnegative, binarized_nonzero. intros H.
  apply map_ext_in. intros row Hrow.
  rewrite Forall_forall in H. specialize (H row Hrow).
  rewrite Forall_forall in H.
  apply map_ext_in. intros v Hv. specialize (H v Hv).
  destruct (Z.ltb_spec 0 v), (Z.eqb_spec v 0); cbn; try reflexivity; lia.
Qed.

(** C6 (amended). At radius 0 the interior mask is, pixel for pixel, the
    mask binarized by [mask > 0]; for a mask without negative labels that
    is the mask that is true exactly where the label is nonzero. *)
Theorem erode_mask_radius_zero (border : bool) (mask : array2 Z) :
  rect mask ->
  erode_mask border mask 0 = map (map (fun v => 0 <? v)) mask /\
  (nonnegative mask -> erode_mask border mask 0 = binarized_nonzero mask).
Proof.
  intros Hr.
  assert (E : erode_mask border mask 0 = map (map (fun v => 0 <? v)) mask).
  { unfold erode_mask, binary_erosion.
    set (bm := map (map (fun v => 0 <? v)) mask).
    assert (Hbm : rect bm) by (apply rect_map_map; exact Hr).
    change (footprint_offsets (disk 0)) with [(0, 0)].
    pose proof (fromfunction_id bm false (eroded_pixel border bm [(0, 0)]) Hbm)
      as Hid.
    destruct (shape bm) as [h w]. cbn [fst snd] in Hid. apply Hid.
    intros i j Hi Hj. unfold eroded_pixel. cbn [forallb].
    rewrite !Z.add_0_r, andb_true_r.
    apply pixel_or_border_in_range; assumption. }
  split; [exact E |].
  intros Hn. rewrite E. apply binarize_nonnegative, Hn.
Qed.

(** The radius-0 theorem on a rectangular 2 x 2 mask. *)
Lemma erode_mask_radius_zero_witness :
  erode_mask false [[0; 5]; [7; 7]] 0 = [[false; true]; [true; true]] /\
  (nonnegative [[0; 5]; [7; 7]] ->
   erode_mask false [[0; 5]; [7; 7]] 0 = binarized_nonzero [[0; 5]; [7; 7]]).
Proof.
  apply (erode_mask_radius_zero false [[0; 5]; [7; 7]]).
  repeat constructor.
Defined.

(** C6 as stated fails on a mask with a negative label: the label is
    nonzero, and the interior at radius 0 is false there. *)
Lemma erode_mask_radius_zero_negative_label :
  erode_mask true [[-1]] 0 <> binarized_nonzero [[-1]] /\
  erode_mask false [[-1]] 0 <> binarized_nonzero [[-1]] /\
  getitem (erode_mask true [[-1]] 0) 0 0 = Some false /\
  getitem (binarized_nonzero [[-1]]) 0 0 = Some true.
Proof.
  repeat split; try discriminate; reflexivity.
Qed.

(** ** Membership counting *)

Lemma getitem_erode_mask_in_range (border : bool) (mask : array2 Z)
    (r y x : Z) :
  0 <= y < fst (shape mask) -> 0 <= x < snd (shape mask) ->
  getitem (erode_mask border mask r) y x =
  Some (eroded_pixel border (map (map (fun v => 0 <? v)) mask)
          (footprint_offsets (disk r)) y x).
Proof.
  intros Hy Hx. rewrite getitem_erode_mask.
  rewrite (norm_index_in_range _ _ Hy), (norm_index_in_range _ _ Hx).
  rewrite !Z2Nat.id by lia. reflexivity.
Qed.

Lemma in_bounds_spec (h w y x : Z) :
  in_bounds h w y x = true <-> 0 <= y < h /\ 0 <= x < w.
Proof.
  unfold in_bounds. rewrite !andb_true_iff, !Z.leb_le, !Z.ltb_lt. lia.
Qed.

(** One point, bounds and interiors taken from the same mask: the step
    never fails, and its effect is read off the two interior pixels. *)
Lemma classify_step_erode (border : bool) (mask : array2 Z) (r1 r2 : Z)
    (c : counters) (coord : point) :
  let h := fst (shape mask) in
  let w := snd (shape mask) in
  let y := fst (pixel_address coord) in
  let x := snd (pixel_address coord) in
  let bm := map (map (fun v => 0 <? v)) mask in
  let s := eroded_pixel border bm (footprint_offsets (disk r1)) y x in
  let d := eroded_pixel border bm (footprint_offsets (disk r2)) y x in
  classify_step h w (erode_mask border mask r1) (erode_mask border mask r2)
    c coord =
  Some (if in_bounds h w y x
        then {| c2_inside := c2_inside c + (if s then 1 else 0);
                c2_deep_inside := c2_deep_inside c + (if d then 1 else 0);
                c2_outside := c2_outside c + (if s then 0 else 1) |}
        else {| c2_inside := c2_inside c;
                c2_deep_inside := c2_deep_inside c;
                c2_outside := c2_outside c + 1 |}).
Proof.
  intros h w y x bm s d. unfold classify_step.
  destruct (pixel_address coord) as [y0 x0] eqn:Ea. cbn [fst snd] in y, x.
  subst y x. fold (in_bounds h w y0 x0).
  destruct (in_bounds h w y0 x0) eqn:Hb; [| reflexivity].
  apply in_bounds_spec in Hb. destruct Hb as [Hy Hx].
  rewrite !getitem_erode_mask_in_range by assumption.
  fold bm. fold s. fold d.
  destruct s, d; cbn [c2_inside c2_deep_inside c2_outside];
    rewrite ?Z.add_0_r; reflexivity.
Qed.

Lemma classify_points_erode (border : bool) (mask : array2 Z) (r1 r2 : Z)
    (c2_coords : list point) (c : counters) :
  exists c' : counters,
    classify_points (fst (shape mask)) (snd (shape mask))
      (erode_mask border mask r1) (erode_mask border mask r2) c c2_coords
    = Some c' /\
    c2_inside c' + c2_outside c' =
    c2_inside c + c2_outside c + Z.of_nat (length c2_coords) /\
    (0 <= r1 -> r1 < r2 ->
     c2_deep_inside c' - c2_deep_inside c <= c2_inside c' - c2_inside c).
Proof.
  revert c. induction c2_coords as [| coord rest IH]; intros c.
  - exists c. cbn [classify_points length]. repeat split; lia.
  - cbn [classify_points]. rewrite classify_step_erode.
    match goal with
    | |- context [classify_points _ _ _ _ ?v rest] => set (c1 := v)
    end.
    destruct (IH c1) as (c' & Hrun & Hsum & Hdeep).
    exists c'. split; [exact Hrun |].
    assert (Hstep : c2_inside c1 + c2_outside c1 = c2_inside c + c2_outside c + 1).
    { subst c1. destruct (in_bounds _ _ _ _);
        [destruct (eroded_pixel border _ (footprint_offsets (disk r1)) _ _) |];
        cbn [c2_inside c2_outside]; lia. }
    split.
    + rewrite Hsum, Hstep. cbn [length]. lia.
    + intros H1 H2. specialize (Hdeep H1 H2).
      assert (Hd : c2_deep_inside c1 - c2_deep_inside c
                   <= c2_inside c1 - c2_inside c).
      { subst c1. destruct (in_bounds _ _ _ _);
          [| cbn [c2_inside c2_deep_inside]; lia].
        destruct (eroded_pixel border _ (footprint_offsets (disk r2)) _ _) eqn:Ed.
        - rewrite (eroded_pixel_incl border _ _ _ _ _
                     (disk_offsets_incl r1 r2 H1 (Z.lt_le_incl _ _ H2)) Ed).
          cbn [c2_inside c2_deep_inside]. lia.
        - destruct (eroded_pixel border _ (footprint_offsets (disk r1)) _ _);
            cbn [c2_inside c2_deep_inside]; lia. }
      lia.
Qed.

(** C1. Each channel-2 point adds one to exactly one of the inside and
    outside counters, a point whose rounded address lies outside
    [0, H) x [0, W) adds to outside only, and a sample is always
    processed to a result in which inside + outside is the number of
    channel-2 points; so is every triplet, whatever is read for it. *)
Theorem inside_outside_partition (border : bool) (std_pixels deep_pixels : Z)
    (name : string) (mask : array2 Z) (c1_coords c2_coords : list point) :
  (forall (c : counters) (coord : point),
      exists c' : counters,
        classify_step (fst (shape mask)) (snd (shape mask))
          (erode_mask border mask std_pixels)
          (erode_mask border mask deep_pixels) c coord = Some c' /\
        ((c2_inside c' = c2_inside c + 1 /\ c2_outside c' = c2_outside c) \/
         (c2_inside c' = c2_inside c /\ c2_outside c' = c2_outside c + 1)) /\
        (in_bounds (fst (shape mask)) (snd (shape mask))
           (fst (pixel_address coord)) (snd (pixel_address coord)) = false ->
         c2_inside c' = c2_inside c /\
         c2_deep_inside c' = c2_deep_inside c /\
         c2_outside c' = c2_outside c + 1)) /\
  (exists r : SampleResult,
      process_sample border std_pixels deep_pixels name mask c1_coords c2_coords
      = Some r /\
      Ch2_Spots_Total r = Z.of_nat (length c2_coords) /\
      Ch2_Inside r + Ch2_Outside r = Ch2_Spots_Total r) /\
  (forall (imread : string -> array2 Z)
          (fromfile : string -> result roi_file) (t : triplet),
      exists r : SampleResult,
        snd (process_triplet border std_pixels deep_pixels imread fromfile t)
        = Some r /\
        Ch2_Inside r + Ch2_Outside r = Ch2_Spots_Total r).
Proof.
  assert (Hsample : forall (name0 : string) (mask0 : array2 Z)
                           (c1 c2 : list point),
             exists r : SampleResult,
               process_sample border std_pixels deep_pixels name0 mask0 c1 c2
               = Some r /\
               Ch2_Spots_Total r = Z.of_nat (length c2) /\
               Ch2_Inside r + Ch2_Outside r = Ch2_Spots_Total r).
  { intros name0 mask0 c1 c2. unfold process_sample.
    pose proof (classify_points_erode border mask0 std_pixels deep_pixels c2
                  {| c2_inside := 0; c2_deep_inside := 0; c2_outside := 0 |})
      as (c' & Hrun & Hsum & _).
    destruct (shape mask0) as [h w]. cbn [fst snd] in Hrun.
    rewrite Hrun. eexists. split; [reflexivity |].
    cbn [Ch2_Spots_Total Ch2_Inside Ch2_Outside].
    cbn [c2_inside c2_outside] in Hsum. split; lia. }
  split; [| split].
  - intros c coord. rewrite classify_step_erode. eexists. split; [reflexivity |].
    destruct (in_bounds _ _ _ _).
    + split; [| discriminate].
      destruct (eroded_pixel border _ (footprint_offsets (disk std_pixels)) _ _);
        cbn [c2_inside c2_outside]; [left | right]; lia.
    + cbn [c2_inside c2_deep_inside c2_outside]. split; [right |]; lia.
  - apply Hsample.
  - intros imread fromfile t. unfold process_triplet.
    destruct (get_roi_coordinates fromfile (t_c1_roi t)) as [out1 c1].
    destruct (get_roi_coordinates fromfile (t_c2_roi t)) as [out2 c2].
    cbn [snd].
    destruct (Hsample (t_id t) (imread (t_mask t)) c1 c2)
      as (r & Hr & _ & Hsum).
    exists r. split; assumption.
Qed.

(** C5. With a deep radius greater than the shallow one, a point counted
    as deep-inside is counted as inside and not as outside; over a sample
    the deep-inside count never exceeds the inside count. *)
Theorem deep_inside_implies_inside (border : bool) (std_pixels deep_pixels : Z)
    (mask : array2 Z) (c : counters) (coord : point) :
  0 <= std_pixels -> std_pixels < deep_pixels ->
  (exists c' : counters,
      classify_step (fst (shape mask)) (snd (shape mask))
        (erode_mask border mask std_pixels)
        (erode_mask border mask deep_pixels) c coord = Some c' /\
      (c2_deep_inside c' = c2_deep_inside c \/
       c2_deep_inside c' = c2_deep_inside c + 1) /\
      (c2_deep_inside c' = c2_deep_inside c + 1 ->
       c2_inside c' = c2_inside c + 1 /\ c2_outside c' = c2_outside c)) /\
  (forall (name : string) (c1_coords c2_coords : list point) (r : SampleResult),
      process_sample border std_pixels deep_pixels name mask c1_coords c2_coords
      = Some r ->
      Ch2_Deep_Inside r <= Ch2_Inside r).
Proof.
  intros H1 H2. split.
  - rewrite classify_step_erode. eexists. split; [reflexivity |].
    destruct (in_bounds _ _ _ _);
      [| cbn [c2_inside c2_deep_inside c2_outside]; split; [left |]; lia].
    destruct (eroded_pixel border _ (footprint_offsets (disk deep_pixels)) _ _)
      eqn:Ed.
    + rewrite (eroded_pixel_incl border _ _ _ _ _
                 (disk_offsets_incl std_pixels deep_pixels H1
                    (Z.lt_le_incl _ _ H2)) Ed).
      cbn [c2_inside c2_deep_inside c2_outside]. split; [right |]; lia.
    + cbn [c2_inside c2_deep_inside c2_outside]. split; [left |]; lia.
  - intros name c1_coords c2_coords r. unfold process_sample.
    pose proof (classify_points_erode border mask std_pixels deep_pixels
                  c2_coords
                  {| c2_inside := 0; c2_deep_inside := 0; c2_outside := 0 |})
      as (c' & Hrun & _ & Hdeep).
    specialize (Hdeep H1 H2).
    destruct (shape mask) as [h w]. cbn [fst snd] in Hrun.
    rewrite Hrun. intros E. inversion E; subst.
    cbn [Ch2_Deep_Inside Ch2_Inside].
    cbn [c2_inside c2_deep_inside] in Hdeep. lia.
Qed.

(** ** Sorting and cell counting *)

Lemma insert_sorted_perm {A : Type} (leb : A -> A -> bool) (x : A)
    (l : list A) :
  Permutation (insert_sorted leb x l) (x :: l).
Proof.
  induction l as [| y l IH]; cbn [insert_sorted].
  - apply Permutation_refl.
  - destruct (leb x y).
    + apply Permutation_refl.
    + apply Permutation_trans with (y :: x :: l).
      * apply perm_skip. exact IH.
      * apply perm_swap.
Qed.

Lemma sorted_perm {A : Type} (leb : A -> A -> bool) (l : list A) :
  Permutation (sorted leb l) l.
Proof.
  induction l as [| x l IH]; cbn [sorted fold_right].
  - apply perm_nil.
  - apply Permutation_trans with (x :: sorted leb l).
    + apply insert_sorted_perm.
    + apply perm_skip. exact IH.
Qed.

Lemma insert_sorted_Z (x : Z) (l : list Z) :
  StronglySorted Z.le l -> StronglySorted Z.le (insert_sorted Z.leb x l).
Proof.
  induction l as [| y l IH]; intros Hs; cbn [insert_sorted].
  - constructor; constructor.
  - inversion Hs as [| ? ? Hl Hy]; subst.
    destruct (Z.leb_spec x y) as [Hxy | Hxy].
    + constructor; [exact Hs |]. constructor; [exact Hxy |].
      apply Forall_impl with (P := Z.le y); [intros; lia | exact Hy].
    + constructor; [apply IH, Hl |].
      rewrite Forall_forall in *. intros v Hv.
      apply (Permutation_in _ (insert_sorted_perm Z.leb x l)) in Hv.
      destruct Hv as [E | Hv]; [lia | apply Hy, Hv].
Qed.

Lemma sorted_Z (l : list Z) : StronglySorted Z.le (sorted Z.leb l).
Proof.
  induction l as [| x l IH]; cbn [sorted fold_right].
  - constructor.
  - apply insert_sorted_Z, IH.
Qed.

Lemma keep_changes_spec (l : list Z) (prev : Z) :
  StronglySorted Z.le l -> Forall (Z.le prev) l ->
  (forall v, In v (keep_changes prev l) <-> In v l /\ prev < v) /\
  NoDup (keep_changes prev l).
Proof.
  revert prev. induction l as [| x l IH]; intros prev Hs Hp;
    cbn [keep_changes].
  - split; [intros v; cbn; tauto | constructor].
  - inversion Hs as [| ? ? Hl Hx]; subst.
    inversion Hp as [| ? ? Hpx Hpl]; subst.
    destruct (Z.eqb_spec x prev) as [E | N].
    + subst x. destruct (IH prev Hl Hpl) as [Hin Hnd].
      split; [| exact Hnd]. intros v. rewrite Hin. cbn [In].
      split; [tauto |]. intros [[E | H] Hv]; [lia | tauto].
    + destruct (IH x Hl Hx) as [Hin Hnd]. split.
      * intros v. cbn [In]. rewrite Hin. rewrite Forall_forall in Hx.
        split.
        -- intros [E | [H Hv]]; [subst; split; [tauto | lia] |].
           split; [tauto | lia].
        -- intros [[E | H] Hv]; [tauto |].
           specialize (Hx v H).
           destruct (Z.eq_dec x v) as [E | Nv]; [tauto |].
           right. split; [exact H | lia].
      * constructor; [| exact Hnd]. rewrite Hin. lia.
Qed.

Lemma np_unique_spec (a : array2 Z) :
  NoDup (np_unique a) /\ forall v, In v (np_unique a) <-> In v (concat a).
Proof.
  unfold np_unique.
  pose proof (sorted_Z (concat a)) as Hs.
  pose proof (sorted_perm Z.leb (concat a)) as Hp.
  destruct (sorted Z.leb (concat a)) as [| x l].
  - split; [constructor |]. intros v. split; [intros [] |].
    intros Hv. apply (Permutation_in _ (Permutation_sym Hp)) in Hv. exact Hv.
  - inversion Hs as [| ? ? Hl Hx]; subst.
    destruct (keep_changes_spec l x Hl Hx) as [Hin Hnd]. split.
    + constructor; [| exact Hnd]. rewrite Hin. lia.
    + intros v. rewrite Forall_forall in Hx. split.
      * intros Hv. apply (Permutation_in _ Hp).
        destruct Hv as [E | Hv]; [left; exact E |].
        right. apply Hin in Hv. tauto.
      * intros Hv. apply (Permutation_in _ (Permutation_sym Hp)) in Hv.
        destruct Hv as [E | Hv]; [left; exact E |].
        destruct (Z.eq_dec x v) as [E | N]; [left; exact E |].
        right. apply Hin. split; [exact Hv |]. specialize (Hx v Hv). lia.
Qed.

(** The nonzero labels of a mask, each once. *)
Lemma cell_ids_spec (mask : array2 Z) :
  let cells := filter (fun v => negb (v =? 0)) (np_unique mask) in
  NoDup cells /\ (forall v, In v cells <-> v <> 0 /\ In v (concat mask)) /\
  cell_count_of mask = Z.of_nat (length cells).
Proof.
  intros cells. destruct (np_unique_spec mask) as [Hnd Hin].
  split; [apply NoDup_filter, Hnd |]. split; [| reflexivity].
  intros v. unfold cells. rewrite filter_In, Hin.
  destruct (Z.eqb_spec v 0); cbn [negb]; split; intros [H1 H2];
    try tauto; try discriminate; split; auto.
Qed.

Lemma NoDup_map_injective {A B : Type} (f : A -> B) (l : list A) :
  (forall a b, f a = f b -> a = b) -> NoDup l -> NoDup (map f l).
Proof.
  intros Hinj Hnd. induction Hnd as [| x l Hx Hnd IH]; cbn [map].
  - constructor.
  - constructor; [| exact IH]. rewrite in_map_iff.
    intros [y [E Hy]]. apply Hinj in E. subst. contradiction.
Qed.

(** C10. The cell count is the number of distinct nonzero values in the
    mask: it is the length of any duplicate-free list of exactly those
    values (and there is one); so it is the same for two masks with the
    same set of values, however many pixels carry each, and it does not
    change when the labels are renamed one-to-one keeping 0. *)
Theorem cell_count_distinct_nonzero (mask : array2 Z) :
  (forall labels : list Z,
      NoDup labels ->
      (forall v, In v labels <-> v <> 0 /\ In v (concat mask)) ->
      cell_count_of mask = Z.of_nat (length labels)) /\
  (exists labels : list Z,
      NoDup labels /\
      (forall v, In v labels <-> v <> 0 /\ In v (concat mask))) /\
  (forall mask' : array2 Z,
      (forall v, In v (concat mask') <-> In v (concat mask)) ->
      cell_count_of mask' = cell_count_of mask) /\
  (forall f : Z -> Z,
      (forall a b, f a = f b -> a = b) -> f 0 = 0 ->
      cell_count_of (map (map f) mask) = cell_count_of mask).
Proof.
  assert (Hchar : forall (m : array2 Z) (labels : list Z),
             NoDup labels ->
             (forall v, In v labels <-> v <> 0 /\ In v (concat m)) ->
             cell_count_of m = Z.of_nat (length labels)).
  { intros m labels Hnd Hin.
    destruct (cell_ids_spec m) as (Hnd' & Hin' & ->).
    f_equal. apply Permutation_length, NoDup_Permutation; try assumption.
    intros v. rewrite Hin, Hin'. tauto. }
  destruct (cell_ids_spec mask) as (Hnd & Hin & Hcount).
  split; [apply Hchar |]. split; [eexists; split; eassumption |]. split.
  - intros mask' Hsame. rewrite Hcount. apply Hchar; [exact Hnd |].
    intros v. rewrite Hin, Hsame. tauto.
  - intros f Hinj Hf0. rewrite Hcount, <- (length_map f).
    apply Hchar; [apply NoDup_map_injective; assumption |].
    intros v. rewrite <- concat_map, !in_map_iff. split.
    + intros [u [E Hu]]. apply Hin in Hu. destruct Hu as [Hu0 Hu]. split.
      * intros E0. apply Hu0, Hinj. rewrite E, E0, Hf0. reflexivity.
      * exists u. auto.
    + intros [Hv0 [u [E Hu]]]. exists u. split; [exact E |].
      apply Hin. split; [| exact Hu]. intros E0. subst. auto.
Qed.

(** ** Coordinate extraction *)

Lemma collect_points (rois : list ImagejRoi) (coords : list point) :
  fst (collect rois coords) = coords ++ points_before_failure rois.
Proof.
  revert coords. induction rois as [| roi rest IH]; intros coords;
    cbn [collect points_before_failure].
  - rewrite app_nil_r. reflexivity.
  - destruct (coordinates roi) as [pts | e].
    + rewrite IH, app_assoc. reflexivity.
    + rewrite app_nil_r. reflexivity.
Qed.

Lemma collect_error (rois : list ImagejRoi) (coords : list point) :
  (exists roi e, In roi rois /\ coordinates roi = Raise e) ->
  exists e, snd (collect rois coords) = Some e.
Proof.
  revert coords. induction rois as [| roi rest IH]; intros coords
    (r & e & Hin & He); [destruct Hin |].
  cbn [collect]. destruct (coordinates roi) as [pts | e'] eqn:Ec.
  - apply IH. destruct Hin as [E | Hin]; [subst; congruence |].
    exists r, e. auto.
  - exists e'. reflexivity.
Qed.

(** C4 (amended). When decoding a source fails, the extractor prints one
    line naming the source by its base name and returns the points of the
    ROIs decoded before the failure: none when the source could not be
    opened. It returns in every case. *)
Theorem get_roi_coordinates_decode_failure
    (fromfile : string -> result roi_file) (roi_path : string) :
  decode_fails fromfile roi_path ->
  (exists e : string,
      fst (get_roi_coordinates fromfile roi_path) = [error_line roi_path e]) /\
  snd (get_roi_coordinates fromfile roi_path) =
    points_before_failure (rois_of fromfile roi_path) /\
  (forall e : string,
      fromfile roi_path = Raise e ->
      get_roi_coordinates fromfile roi_path = ([error_line roi_path e], [])).
Proof.
  unfold decode_fails, get_roi_coordinates, rois_of. intros Hf.
  destruct (fromfile roi_path) as [[roi | rois] | e0].
  - destruct Hf as [e He]. cbn [collect points_before_failure].
    rewrite He. cbn [fst snd].
    split; [exists e; reflexivity |]. split; [reflexivity |].
    intros e1 E. discriminate E.
  - destruct (collect_error rois [] Hf) as [e He].
    pose proof (collect_points rois []) as Hp.
    destruct (collect rois []) as [coords err]. cbn [fst snd] in *.
    subst err. cbn [fst snd].
    split; [exists e; reflexivity |]. split; [exact Hp |].
    intros e1 E. discriminate E.
  - cbn [fst snd points_before_failure].
    split; [exists e0; reflexivity |]. split; [reflexivity |].
    intros e E. inversion E. reflexivity.
Qed.

(** The failure theorem on a source that cannot be opened. *)
Lemma get_roi_coordinates_decode_failure_witness :
  (exists e : string,
      fst (get_roi_coordinates (fun _ => Raise "bad zip file") "d/s_C1_ROIs.zip")
      = [error_line "d/s_C1_ROIs.zip" e]) /\
  snd (get_roi_coordinates (fun _ => Raise "bad zip file") "d/s_C1_ROIs.zip")
  = points_before_failure
      (rois_of (fun _ => Raise "bad zip file") "d/s_C1_ROIs.zip") /\
  (forall e : string,
      Raise "bad zip file" = Raise (A := roi_file) e ->
      get_roi_coordinates (fun _ => Raise "bad zip file") "d/s_C1_ROIs.zip"
      = ([error_line "d/s_C1_ROIs.zip" e], [])).
Proof.
  apply (get_roi_coordinates_decode_failure
           (fun _ => Raise "bad zip file") "d/s_C1_ROIs.zip").
  simpl. exact I.
Defined.

(** C4 as stated fails when a [coordinates()] call raises after an earlier
    ROI was decoded: the failure is reported, and the point already
    collected is returned. *)
Lemma get_roi_coordinates_partial_result :
  decode_fails
    (fun _ => Ok (Many [ {| coordinates := Ok (Arr1 (1, 2)%Q) |};
                         {| coordinates := Raise "unsupported path" |} ]))
    "d/s_C2_ROIs.zip" /\
  get_roi_coordinates
    (fun _ => Ok (Many [ {| coordinates := Ok (Arr1 (1, 2)%Q) |};
                         {| coordinates := Raise "unsupported path" |} ]))
    "d/s_C2_ROIs.zip"
  = (["Error reading ROI file s_C2_ROIs.zip: unsupported path"%string],
     [(1, 2)%Q]) /\
  snd (get_roi_coordinates
         (fun _ => Ok (Many [ {| coordinates := Ok (Arr1 (1, 2)%Q) |};
                              {| coordinates := Raise "unsupported path" |} ]))
         "d/s_C2_ROIs.zip") <> [].
Proof.
  split; [| split].
  - cbn. eexists. eexists. split; [right; left; reflexivity | reflexivity].
  - reflexivity.
  - discriminate.
Qed.

(** ** Matching *)

Lemma first_match_Some (directory : string) (listing : list string)
    (mask_path : string) (candidates : list string) (t : triplet) :
  first_match directory listing mask_path candidates = Some t ->
  t = {| t_id := t_id t; t_mask := mask_path;
         t_c1_roi := c1_path_of directory (t_id t);
         t_c2_roi := c2_path_of directory (t_id t) |} /\
  both_exist directory listing (t_id t) = true /\
  exists before after : list string,
    candidates = before ++ t_id t :: after /\
    Forall (fun c => both_exist directory listing c = false) before.
Proof.
  induction candidates as [| base_id rest IH]; cbn [first_match];
    [discriminate |].
  destruct (both_exist directory listing base_id) eqn:Hb.
  - intros E. inversion E; subst. cbn [t_id]. split; [reflexivity |].
    split; [exact Hb |]. exists [], rest. split; [reflexivity | constructor].
  - intros E. destruct (IH E) as (Ht & Hboth & before & after & Hc & Hf).
    split; [exact Ht |]. split; [exact Hboth |].
    exists (base_id :: before), after. split.
    + rewrite Hc. reflexivity.
    + constructor; assumption.
Qed.

Lemma first_match_None (directory : string) (listing : list string)
    (mask_path : string) (candidates : list string) :
  first_match directory listing mask_path candidates = None <->
  Forall (fun c => both_exist directory listing c = false) candidates.
Proof.
  induction candidates as [| base_id rest IH]; cbn [first_match].
  - split; [constructor | reflexivity].
  - destruct (both_exist directory listing base_id) eqn:Hb.
    + split; [discriminate |]. intros H. inversion H; subst. congruence.
    + rewrite IH. split; [constructor; assumption |].
      intros H. inversion H; assumption.
Qed.

Lemma fold_match_step (directory : string) (listing masks : list string)
    (acc : list triplet * list string) :
  fold_left (match_step directory listing) masks acc =
  (fst acc ++
   flat_map (fun m => match match_of directory listing m with
                      | Some t => [t]
                      | None => []
                      end) masks,
   snd acc ++
   flat_map (fun m => match match_of directory listing m with
                      | Some _ => []
                      | None => [warning_for (os_path_basename m)]
                      end) masks).
Proof.
  revert acc. induction masks as [| m masks IH]; intros acc;
    cbn [fold_left flat_map].
  - rewrite !app_nil_r. destruct acc; reflexivity.
  - rewrite IH. unfold match_step, match_of.
    destruct (first_match directory listing m
                (unique_candidates (os_path_basename m))) as [t |];
      cbn [fst snd]; rewrite <- ?app_assoc; reflexivity.
Qed.

Lemma In_triplets (directory : string) (listing : list string) (t : triplet) :
  In t (fst (find_file_triplets directory listing)) <->
  exists m, In m (possible_masks directory listing) /\
            match_of directory listing m = Some t.
Proof.
  unfold find_file_triplets. rewrite fold_match_step. cbn [fst app].
  rewrite in_flat_map. split.
  - intros [m [Hm Ht]]. exists m. split; [exact Hm |].
    destruct (match_of directory listing m) as [t' |]; [| destruct Ht].
    destruct Ht as [E | []]. subst. reflexivity.
  - intros [m [Hm Ht]]. exists m. split; [exact Hm |].
    rewrite Ht. left. reflexivity.
Qed.

Lemma In_warnings (directory : string) (listing : list string) (line : string) :
  In line (snd (find_file_triplets directory listing)) <->
  exists m, In m (possible_masks directory listing) /\
            match_of directory listing m = None /\
            line = warning_for (os_path_basename m).
Proof.
  unfold find_file_triplets. rewrite fold_match_step. cbn [snd app].
  rewrite in_flat_map. split.
  - intros [m [Hm Ht]]. exists m. split; [exact Hm |].
    destruct (match_of directory listing m) as [t' |]; [destruct Ht |].
    destruct Ht as [E | []]. subst. auto.
  - intros [m [Hm [Ht E]]]. exists m. split; [exact Hm |].
    rewrite Ht. left. symmetry. exact E.
Qed.

Lemma length_flat_map_split {A B C : Type} (f : A -> option B) (g : A -> C)
    (l : list A) :
  (length (flat_map (fun m => match f m with Some t => [t] | None => [] end) l)
   + length (flat_map (fun m => match f m with
                                | Some _ => []
                                | None => [g m]
                                end) l) = length l)%nat.
Proof.
  induction l as [| a l IH]; cbn [flat_map]; [reflexivity |].
  rewrite !length_app. destruct (f a); cbn [length]; lia.
Qed.

(** C7. Every triplet returned comes from an enumerated mask and its two
    companion paths exist; a mask none of whose candidates has both
    companions gets a warning line and no triplet; every other
    enumerated mask gets its triplet; each mask is accounted for once. *)
Theorem find_file_triplets_complete (directory : string)
    (listing : list string) :
  (forall t : triplet,
      In t (fst (find_file_triplets directory listing)) ->
      In (t_mask t) (possible_masks directory listing) /\
      os_path_exists directory listing (t_c1_roi t) = true /\
      os_path_exists directory listing (t_c2_roi t) = true) /\
  (forall mask_path : string,
      In mask_path (possible_masks directory listing) ->
      Forall (fun c => both_exist directory listing c = false)
        (unique_candidates (os_path_basename mask_path)) ->
      In (warning_for (os_path_basename mask_path))
        (snd (find_file_triplets directory listing)) /\
      forall t : triplet,
        In t (fst (find_file_triplets directory listing)) ->
        t_mask t <> mask_path) /\
  (forall mask_path : string,
      In mask_path (possible_masks directory listing) ->
      Exists (fun c => both_exist directory listing c = true)
        (unique_candidates (os_path_basename mask_path)) ->
      exists t : triplet,
        In t (fst (find_file_triplets directory listing)) /\
        t_mask t = mask_path) /\
  (length (fst (find_file_triplets directory listing)) +
   length (snd (find_file_triplets directory listing)) =
   length (possible_masks directory listing))%nat.
Proof.
  split; [| split; [| split]].
  - intros t Ht. apply In_triplets in Ht. destruct Ht as [m [Hm Ht]].
    apply first_match_Some in Ht. destruct Ht as (Et & Hboth & _).
    unfold both_exist in Hboth. apply andb_true_iff in Hboth.
    rewrite Et. cbn [t_mask t_c1_roi t_c2_roi]. tauto.
  - intros mask_path Hm Hnone. apply first_match_None with (mask_path := mask_path) in Hnone.
    split.
    + apply In_warnings. exists mask_path. auto.
    + intros t Ht E. apply In_triplets in Ht. destruct Ht as [m [_ Ht]].
      pose proof (first_match_Some _ _ _ _ _ Ht) as (Et & _).
      rewrite Et in E. cbn [t_mask] in E. subst m.
      unfold match_of in Ht. congruence.
  - intros mask_path Hm Hsome.
    destruct (match_of directory listing mask_path) as [t |] eqn:Ht.
    + exists t. split; [apply In_triplets; exists mask_path; auto |].
      apply first_match_Some in Ht. destruct Ht as (Et & _).
      rewrite Et. reflexivity.
    + exfalso. apply first_match_None in Ht.
      apply Exists_exists in Hsome. destruct Hsome as [c [Hc Hb]].
      rewrite Forall_forall in Ht. rewrite (Ht c Hc) in Hb. discriminate.
  - unfold find_file_triplets. rewrite fold_match_step. cbn [fst snd app].
    apply length_flat_map_split.
Qed.

(** ** Strings *)

Lemma prefix_refl (p : string) : prefix p p = true.
Proof.
  induction p as [| a p IH]; cbn [prefix]; [reflexivity |].
  destruct (ascii_dec a a); [exact IH | congruence].
Qed.

Lemma prefix_exists (p s : string) :
  prefix p s = true -> exists r, s = String.append p r.
Proof.
  revert s. induction p as [| a p IH]; intros s H.
  - exists s. reflexivity.
  - destruct s as [| b s]; cbn [prefix] in H; [discriminate |].
    destruct (ascii_dec a b) as [E | N]; [| discriminate].
    destruct (IH s H) as [r Hr]. exists r. subst. reflexivity.
Qed.

Lemma append_length (a b : string) :
  String.length (String.append a b) = (String.length a + String.length b)%nat.
Proof.
  induction a as [| c a IH]; cbn [String.append String.length];
    [reflexivity | rewrite IH; reflexivity].
Qed.

Lemma append_empty_r (a : string) : String.append a EmptyString = a.
Proof.
  induction a as [| c a IH]; cbn [String.append];
    [reflexivity | rewrite IH; reflexivity].
Qed.

Lemma prefix_same_length (p s : string) :
  prefix p s = true -> String.length p = String.length s -> s = p.
Proof.
  intros H L. destruct (prefix_exists p s H) as [r Hr]. subst s.
  rewrite append_length in L. destruct r as [| c r].
  - apply append_empty_r.
  - cbn [String.length] in L. lia.
Qed.

Lemma replace_from_skip (old new s : string) (k : nat) :
  (String.length s <= k)%nat -> replace_from old new k s = EmptyString.
Proof.
  revert k. induction s as [| c s IH]; intros k H; cbn [replace_from];
    [reflexivity |].
  cbn [String.length] in H. destruct k as [| k]; [lia |]. apply IH. lia.
Qed.

(** A pattern that occurs only as the suffix: deleting its occurrences is
    stripping it. *)
Lemma replace_is_strip (p s : string) :
  p <> EmptyString -> only_as_suffix p s = true ->
  (if str_in p s then [str_replace p "" s] else []) = stripped p s.
Proof.
  intros Hp. unfold stripped, str_replace, only_as_suffix.
  induction s as [| c s IH]; intros Hs.
  - cbn [str_in strip_suffix]. destruct p as [| a p]; [congruence |].
    reflexivity.
  - cbn [str_in str_find strip_suffix replace_from] in *.
    destruct (prefix p (String c s)) eqn:Hpre.
    + cbn [orb]. apply Nat.eqb_eq in Hs. cbn [Nat.add] in Hs.
      pose proof (prefix_same_length _ _ Hpre Hs) as E.
      rewrite E, String.eqb_refl. cbn [String.append].
      rewrite replace_from_skip; [reflexivity |].
      rewrite E in Hs. rewrite <- E in Hs at 2. cbn [String.length] in Hs. lia.
    + cbn [orb].
      assert (Hne : String.eqb (String c s) p = false).
      { apply String.eqb_neq. intros E. rewrite E, prefix_refl in Hpre.
        discriminate. }
      rewrite Hne.
      assert (Hs' : match str_find p s with
                    | Some n => Nat.eqb (n + String.length p) (String.length s)
                    | None => true
                    end = true).
      { destruct (str_find p s) as [n |]; [| reflexivity].
        cbn [option_map String.length] in Hs. exact Hs. }
      specialize (IH Hs').
      destruct (str_in p s).
      * destruct (strip_suffix p s) as [b |]; [| discriminate].
        inversion IH as [Hb]. cbn [option_map]. rewrite Hb. reflexivity.
      * destruct (strip_suffix p s) as [b |]; [discriminate |]. reflexivity.
Qed.

Lemma strip_suffix_spec (suffix s b : string) :
  strip_suffix suffix s = Some b <-> s = String.append b suffix.
Proof.
  split.
  - revert b. induction s as [| c s IH]; intros b; cbn [strip_suffix].
    + destruct (String.eqb_spec EmptyString suffix) as [E | N];
        [| discriminate].
      intros H. inversion H; subst. reflexivity.
    + destruct (String.eqb_spec (String c s) suffix) as [E | N].
      * intros H. inversion H; subst. reflexivity.
      * destruct (strip_suffix suffix s) as [b' |]; [| discriminate].
        intros H. inversion H; subst. cbn [String.append].
        rewrite <- (IH b' eq_refl). reflexivity.
  - intros E. subst s. induction b as [| c b IH]; cbn [String.append].
    + destruct suffix; cbn [strip_suffix]; rewrite String.eqb_refl; reflexivity.
    + cbn [strip_suffix].
      destruct (String.eqb_spec (String c (String.append b suffix)) suffix)
        as [E | N].
      * apply (f_equal String.length) in E.
        cbn [String.length] in E. rewrite append_length in E. lia.
      * rewrite IH. reflexivity.
Qed.

Lemma list_ascii_of_string_app (a b : string) :
  list_ascii_of_string (String.append a b) =
  list_ascii_of_string a ++ list_ascii_of_string b.
Proof.
  induction a as [| c a IH]; cbn [String.append list_ascii_of_string app];
    [reflexivity | rewrite IH; reflexivity].
Qed.

Lemma after_first_app (sep : ascii) (l r : list ascii) :
  ~ In sep l -> after_first sep (l ++ sep :: r) = Some r.
Proof.
  induction l as [| c l IH]; intros H; cbn [app after_first].
  - rewrite Ascii.eqb_refl. reflexivity.
  - destruct (Ascii.eqb_spec c sep) as [E | N].
    + exfalso. apply H. left. exact E.
    + apply IH. intros Hin. apply H. right. exact Hin.
Qed.

(** With two segments after it, the head of [rsplit] is what precedes
    them. *)
Lemma rsplit_head_two (sep : ascii) (b s1 s2 : string) :
  lacks sep s1 -> lacks sep s2 ->
  rsplit_head sep 2
    (String.append b (String sep (String.append s1 (String sep s2)))) = b.
Proof.
  unfold lacks, rsplit_head. intros H1 H2.
  rewrite list_ascii_of_string_app. cbn [list_ascii_of_string].
  rewrite list_ascii_of_string_app. cbn [list_ascii_of_string].
  rewrite rev_app_distr. cbn [rev]. rewrite rev_app_distr. cbn [rev].
  rewrite <- !app_assoc. cbn [app cut_segments].
  rewrite after_first_app by (rewrite <- in_rev; exact H2).
  rewrite after_first_app by (rewrite <- in_rev; exact H1).
  rewrite rev_involutive. apply string_of_list_ascii_of_string.
Qed.

Lemma ends_with_spec (suffix s : string) :
  ends_with suffix s = true <-> exists b, s = String.append b suffix.
Proof.
  split.
  - induction s as [| c s IH]; cbn [ends_with].
    + rewrite orb_false_r. intros H. apply String.eqb_eq in H.
      exists EmptyString. rewrite <- H. reflexivity.
    + intros H. apply orb_true_iff in H. destruct H as [H | H].
      * apply String.eqb_eq in H. exists EmptyString. rewrite <- H. reflexivity.
      * destruct (IH H) as [b Hb]. exists (String c b). rewrite Hb. reflexivity.
  - intros [b Hb]. subst s. induction b as [| c b IH]; cbn [String.append].
    + destruct suffix; cbn [ends_with]; rewrite String.eqb_refl; reflexivity.
    + cbn [ends_with]. rewrite IH. apply orb_true_r.
Qed.

Lemma basename_from_slash (cur d n : string) :
  basename_from cur (String.append d (String "/" n)) =
  basename_from EmptyString n.
Proof.
  revert cur. induction d as [| c d IH]; intros cur;
    cbn [String.append basename_from].
  - reflexivity.
  - destruct (Ascii.eqb c "/"); apply IH.
Qed.

Lemma basename_from_lacks (cur n : string) :
  lacks "/" n -> basename_from cur n = String.append cur n.
Proof.
  unfold lacks. revert cur. induction n as [| c n IH]; intros cur H;
    cbn [basename_from].
  - rewrite append_empty_r. reflexivity.
  - cbn [list_ascii_of_string] in H.
    destruct (Ascii.eqb_spec c "/") as [E | N].
    + exfalso. apply H. left. exact E.
    + rewrite IH by (intros Hin; apply H; right; exact Hin).
      clear. induction cur as [| a cur IH]; cbn [String.append];
        [reflexivity | rewrite IH; reflexivity].
Qed.

Lemma append_assoc (a b c : string) :
  String.append (String.append a b) c = String.append a (String.append b c).
Proof.
  induction a as [| x a IH]; cbn [String.append];
    [reflexivity | rewrite IH; reflexivity].
Qed.

Lemma lacks_prefix (n : string) : lacks "/" n -> prefix "/" n = false.
Proof.
  unfold lacks. destruct n as [| c n]; [reflexivity |].
  cbn [prefix list_ascii_of_string]. intros H.
  destruct (ascii_dec "/" c) as [E | N]; [| reflexivity].
  exfalso. apply H. left. symmetry. exact E.
Qed.

(** The base name of an entry's path is the entry's name. *)
Lemma basename_join (directory n : string) :
  lacks "/" n -> os_path_basename (os_path_join directory n) = n.
Proof.
  intros H. unfold os_path_basename, os_path_join.
  rewrite (lacks_prefix n H).
  destruct (String.eqb directory "").
  - apply (basename_from_lacks EmptyString n H).
  - destruct (ends_with "/" directory) eqn:He.
    + apply ends_with_spec in He. destruct He as [d Hd]. subst directory.
      rewrite append_assoc. cbn [String.append].
      rewrite basename_from_slash. apply (basename_from_lacks EmptyString n H).
    + rewrite basename_from_slash. apply (basename_from_lacks EmptyString n H).
Qed.

(** ** The mask enumeration *)

Lemma In_possible_masks (directory : string) (listing : list string)
    (p : string) :
  In p (possible_masks directory listing) <->
  exists n, In n listing /\ prefix "." n = false /\ recognized n = true /\
            p = os_path_join directory n.
Proof.
  unfold possible_masks, list_set, glob_suffix, recognized.
  split.
  - intros H. apply (Permutation_in _ (sorted_perm _ _)) in H.
    apply nodup_In in H. apply in_app_or in H.
    destruct H as [H | H]; apply in_map_iff in H; destruct H as [n [E H]];
      apply filter_In in H; destruct H as [Hn Hf];
      apply andb_true_iff in Hf; destruct Hf as [Hdot Hend];
      apply negb_true_iff in Hdot; exists n; rewrite Hend;
      rewrite ?orb_true_r; auto.
  - intros (n & Hn & Hdot & Hrec & E). subst p.
    apply (Permutation_in _ (Permutation_sym (sorted_perm _ _))).
    apply nodup_In. apply in_or_app. apply orb_true_iff in Hrec.
    destruct Hrec as [Hrec | Hrec]; [left | right]; apply in_map, filter_In;
      (split; [exact Hn |]); rewrite Hdot, Hrec; reflexivity.
Qed.

Lemma NoDup_possible_masks (directory : string) (listing : list string) :
  NoDup (possible_masks directory listing).
Proof.
  unfold possible_masks.
  apply (Permutation_NoDup (Permutation_sym (sorted_perm _ _))).
  apply NoDup_nodup.
Qed.

Lemma os_path_exists_entry (directory : string) (listing : list string)
    (n : string) :
  In n listing ->
  os_path_exists directory listing (os_path_join directory n) = true.
Proof.
  intros H. unfold os_path_exists. apply existsb_exists.
  exists n. split; [exact H | apply String.eqb_refl].
Qed.

Lemma match_of_mask (directory : string) (listing : list string)
    (m : string) (t : triplet) :
  match_of directory listing m = Some t -> t_mask t = m.
Proof.
  intros H. apply first_match_Some in H. destruct H as [E _].
  rewrite E. reflexivity.
Qed.

Lemma filter_matches_absent (directory : string) (listing masks : list string)
    (p : string) :
  ~ In p masks ->
  filter (fun t => String.eqb (t_mask t) p)
    (flat_map (fun m => match match_of directory listing m with
                        | Some t => [t]
                        | None => []
                        end) masks) = [].
Proof.
  induction masks as [| m masks IH]; intros H; cbn [flat_map];
    [reflexivity |].
  rewrite filter_app, IH by (intros Hin; apply H; right; exact Hin).
  rewrite app_nil_r.
  destruct (match_of directory listing m) as [t |] eqn:Ht; [| reflexivity].
  cbn [filter]. rewrite (match_of_mask _ _ _ _ Ht).
  destruct (String.eqb_spec m p) as [E | N]; [| reflexivity].
  exfalso. apply H. left. exact E.
Qed.

Lemma filter_matches_present (directory : string)
    (listing masks : list string) (p : string) :
  NoDup masks -> In p masks ->
  filter (fun t => String.eqb (t_mask t) p)
    (flat_map (fun m => match match_of directory listing m with
                        | Some t => [t]
                        | None => []
                        end) masks) =
  match match_of directory listing p with
  | Some t => [t]
  | None => []
  end.
Proof.
  induction masks as [| m masks IH]; intros Hnd Hin; [destruct Hin |].
  inversion Hnd as [| ? ? Hm Hnd']; subst. cbn [flat_map].
  rewrite filter_app.
  destruct (String.eqb_spec m p) as [E | N].
  - subst m. rewrite filter_matches_absent by exact Hm. rewrite app_nil_r.
    destruct (match_of directory listing p) as [t |] eqn:Ht; [| reflexivity].
    cbn [filter]. rewrite (match_of_mask _ _ _ _ Ht), String.eqb_refl.
    reflexivity.
  - destruct Hin as [E | Hin]; [contradiction |].
    rewrite (IH Hnd' Hin).
    destruct (match_of directory listing m) as [t |] eqn:Ht; [| reflexivity].
    cbn [filter]. rewrite (match_of_mask _ _ _ _ Ht).
    destruct (String.eqb_spec m p) as [E | _]; [contradiction | reflexivity].
Qed.

(** The triplets returned for one enumerated mask: its match, once. *)
Lemma triplets_of_mask (directory : string) (listing : list string)
    (p : string) :
  In p (possible_masks directory listing) ->
  filter (fun t => String.eqb (t_mask t) p)
    (fst (find_file_triplets directory listing)) =
  match match_of directory listing p with
  | Some t => [t]
  | None => []
  end.
Proof.
  intros H. unfold find_file_triplets. rewrite fold_match_step.
  cbn [fst app]. apply filter_matches_present;
    [apply NoDup_possible_masks | exact H].
Qed.

Lemma sample1_scenario (directory : string) (listing : list string)
    (mask_path : string) :
  In mask_path (possible_masks directory listing) ->
  os_path_basename mask_path = "sample1_ch1_cells_mask.tif"%string ->
  os_path_exists directory listing
    (os_path_join directory "sample1_C1_ROIs.zip") = true ->
  os_path_exists directory listing
    (os_path_join directory "sample1_C2_ROIs.zip") = true ->
  filter (fun t => String.eqb (t_mask t) mask_path)
    (fst (find_file_triplets directory listing)) =
  [{| t_id := "sample1";
      t_mask := mask_path;
      t_c1_roi := os_path_join directory "sample1_C1_ROIs.zip";
      t_c2_roi := os_path_join directory "sample1_C2_ROIs.zip" |}].
Proof.
  intros Hm Hbase H1 H2. rewrite triplets_of_mask by exact Hm.
  unfold match_of. rewrite Hbase.
  replace (unique_candidates "sample1_ch1_cells_mask.tif")
    with ["sample1"%string; "sample1_ch1"%string] by reflexivity.
  cbn [first_match]. unfold both_exist, c1_path_of, c2_path_of.
  cbn [String.append]. rewrite H1, H2. reflexivity.
Qed.

(** ** Candidates *)

Lemma filter_absent_after_drop (acc : list string) (x : string)
    (l : list string) :
  existsb (String.eqb x) acc = true ->
  filter (fun y => negb (existsb (String.eqb y) acc))
    (filter (fun y => negb (String.eqb y x)) l) =
  filter (fun y => negb (existsb (String.eqb y) acc)) l.
Proof.
  intros Hx. induction l as [| y l IH]; cbn [filter]; [reflexivity |].
  destruct (String.eqb_spec y x) as [E | N]; cbn [negb filter].
  - subst y. rewrite Hx. cbn [negb]. exact IH.
  - rewrite IH. reflexivity.
Qed.

Lemma filter_absent_snoc (acc : list string) (x : string) (l : list string) :
  filter (fun y => negb (existsb (String.eqb y) (acc ++ [x]))) l =
  filter (fun y => negb (existsb (String.eqb y) acc))
    (filter (fun y => negb (String.eqb y x)) l).
Proof.
  induction l as [| y l IH]; cbn [filter]; [reflexivity |].
  rewrite existsb_app. cbn [existsb]. rewrite orb_false_r.
  destruct (String.eqb y x); cbn [negb filter].
  - rewrite orb_true_r. cbn [negb]. exact IH.
  - rewrite orb_false_r, IH. reflexivity.
Qed.

Lemma unique_of_from (l acc : list string) :
  fold_left
    (fun unique x =>
       if existsb (String.eqb x) unique then unique else unique ++ [x])
    l acc =
  acc ++ filter (fun y => negb (existsb (String.eqb y) acc)) (first_seen l).
Proof.
  revert acc. induction l as [| x l IH]; intros acc;
    cbn [fold_left first_seen filter].
  - rewrite app_nil_r. reflexivity.
  - rewrite IH. destruct (existsb (String.eqb x) acc) eqn:Hx; cbn [negb].
    + rewrite filter_absent_after_drop by exact Hx. reflexivity.
    + rewrite filter_absent_snoc, <- app_assoc. reflexivity.
Qed.

(** The comprehension that removes repeats keeps the first occurrences,
    in order. *)
Lemma unique_of_first_seen (l : list string) : unique_of l = first_seen l.
Proof.
  unfold unique_of. rewrite unique_of_from. cbn [app existsb negb].
  induction (first_seen l) as [| y u IH]; cbn [filter];
    [reflexivity | rewrite IH; reflexivity].
Qed.

Lemma candidates_strip (filename : string) :
  only_as_suffix "_ch1_cells_mask.tif" filename = true ->
  only_as_suffix "_cells_mask.tif" filename = true ->
  only_as_suffix "_cell_mask.tif" filename = true ->
  unique_candidates filename = spec_candidates filename.
Proof.
  intros H1 H2 H3. unfold unique_candidates, spec_candidates, candidates_of.
  rewrite unique_of_first_seen.
  rewrite (replace_is_strip "_ch1_cells_mask.tif" filename) by
    (discriminate || exact H1).
  rewrite (replace_is_strip "_cells_mask.tif" filename) by
    (discriminate || exact H2).
  rewrite (replace_is_strip "_cell_mask.tif" filename) by
    (discriminate || exact H3).
  reflexivity.
Qed.

(** C3 (amended). For a mask file name in which a recognized suffix occurs
    only at the end, the candidates are the name with
    [_ch1_cells_mask.tif] stripped, then with [_cells_mask.tif] stripped,
    then with [_cell_mask.tif] stripped, then the fallback (which, for a
    name with two segments after it, is what precedes them), repeats
    removed in first-seen order; the match of a mask is the first
    candidate whose two companion files exist, whatever the candidates
    after it; and for an enumerated mask named
    [sample1_ch1_cells_mask.tif], when [sample1_C1_ROIs.zip] and
    [sample1_C2_ROIs.zip] exist in the directory, exactly one triplet is
    returned for that mask, with identifier [sample1]. *)
Theorem find_file_triplets_priority (directory : string)
    (listing : list string) :
  (forall filename : string,
      only_as_suffix "_ch1_cells_mask.tif" filename = true ->
      only_as_suffix "_cells_mask.tif" filename = true ->
      only_as_suffix "_cell_mask.tif" filename = true ->
      unique_candidates filename = spec_candidates filename) /\
  (forall b s1 s2 : string,
      lacks "_" s1 -> lacks "_" s2 ->
      rsplit_head "_" 2
        (String.append b (String "_" (String.append s1 (String "_" s2)))) = b) /\
  (forall (mask_path : string) (t : triplet),
      match_of directory listing mask_path = Some t ->
      t = {| t_id := t_id t; t_mask := mask_path;
             t_c1_roi := os_path_join directory
                           (String.append (t_id t) "_C1_ROIs.zip");
             t_c2_roi := os_path_join directory
                           (String.append (t_id t) "_C2_ROIs.zip") |} /\
      both_exist directory listing (t_id t) = true /\
      exists before after : list string,
        unique_candidates (os_path_basename mask_path)
        = before ++ t_id t :: after /\
        Forall (fun c => both_exist directory listing c = false) before /\
        forall after' : list string,
          first_match directory listing mask_path (before ++ t_id t :: after')
          = Some t) /\
  (forall mask_path : string,
      In mask_path (possible_masks directory listing) ->
      os_path_basename mask_path = "sample1_ch1_cells_mask.tif"%string ->
      os_path_exists directory listing
        (os_path_join directory "sample1_C1_ROIs.zip") = true ->
      os_path_exists directory listing
        (os_path_join directory "sample1_C2_ROIs.zip") = true ->
      filter (fun t => String.eqb (t_mask t) mask_path)
        (fst (find_file_triplets directory listing)) =
      [{| t_id := "sample1";
          t_mask := mask_path;
          t_c1_roi := os_path_join directory "sample1_C1_ROIs.zip";
          t_c2_roi := os_path_join directory "sample1_C2_ROIs.zip" |}]).
Proof.
  split; [exact candidates_strip |].
  split; [intros b s1 s2; apply rsplit_head_two |].
  split; [| intros mask_path; apply sample1_scenario].
  intros mask_path t Ht. unfold match_of in Ht.
  destruct (first_match_Some _ _ _ _ _ Ht)
    as (Et & Hboth & before & after & Hc & Hf).
  split; [exact Et |]. split; [exact Hboth |].
  exists before, after. split; [exact Hc |]. split; [exact Hf |].
  intros after'. clear Hc Ht.
  induction Hf as [| c before Hcb Hf IH]; cbn [app first_match].
  - rewrite Hboth. f_equal. symmetry. exact Et.
  - rewrite Hcb. exact IH.
Qed.

(** The candidates theorem on the mask name of the scenario, and the
    scenario in a directory that holds the three files and a fourth. *)
Lemma find_file_triplets_priority_witness :
  unique_candidates "sample1_ch1_cells_mask.tif"
  = spec_candidates "sample1_ch1_cells_mask.tif" /\
  spec_candidates "sample1_ch1_cells_mask.tif"
  = ["sample1"%string; "sample1_ch1"%string] /\
  filter (fun t => String.eqb (t_mask t) "/data/sample1_ch1_cells_mask.tif")
    (fst (find_file_triplets "/data"
            ["sample1_C2_ROIs.zip"%string; "other_cell_mask.tif"%string;
             "sample1_ch1_cells_mask.tif"%string;
             "sample1_C1_ROIs.zip"%string])) =
  [{| t_id := "sample1";
      t_mask := "/data/sample1_ch1_cells_mask.tif";
      t_c1_roi := "/data/sample1_C1_ROIs.zip";
      t_c2_roi := "/data/sample1_C2_ROIs.zip" |}].
Proof.
  split; [| split; [reflexivity |]].
  - apply (proj1 (find_file_triplets_priority "/data" [])); reflexivity.
  - apply (proj2 (proj2 (proj2
             (find_file_triplets_priority "/data"
                ["sample1_C2_ROIs.zip"%string; "other_cell_mask.tif"%string;
                 "sample1_ch1_cells_mask.tif"%string;
                 "sample1_C1_ROIs.zip"%string]))));
      [vm_compute; tauto | reflexivity | reflexivity | reflexivity].
Defined.

(** C3 as stated fails for a mask name that holds a recognized suffix
    twice: the program deletes both occurrences where the claim strips
    one, so the candidates differ, and with companion files for both
    identifiers the program matches [a] where the first stripped
    candidate with both companions is [a_cells_mask.tif]. It fails in its
    scenario too: beside a second mask [sample1_cells_mask.tif] the
    three files give two triplets with identifier [sample1], one for
    each mask. *)
Lemma find_file_triplets_suffix_twice :
  recognized "a_cells_mask.tif_cells_mask.tif" = true /\
  unique_candidates "a_cells_mask.tif_cells_mask.tif"
  = ["a"%string; "a_cells_mask.tif"%string] /\
  spec_candidates "a_cells_mask.tif_cells_mask.tif"
  = ["a_cells_mask.tif"%string] /\
  unique_candidates "a_cells_mask.tif_cells_mask.tif"
  <> spec_candidates "a_cells_mask.tif_cells_mask.tif" /\
  map t_id
    (fst (find_file_triplets "/d"
            ["a_cells_mask.tif_cells_mask.tif"%string;
             "a_C1_ROIs.zip"%string; "a_C2_ROIs.zip"%string;
             "a_cells_mask.tif_C1_ROIs.zip"%string;
             "a_cells_mask.tif_C2_ROIs.zip"%string]))
  = ["a"%string] /\
  option_map t_id
    (first_match "/d"
       ["a_cells_mask.tif_cells_mask.tif"%string;
        "a_C1_ROIs.zip"%string; "a_C2_ROIs.zip"%string;
        "a_cells_mask.tif_C1_ROIs.zip"%string;
        "a_cells_mask.tif_C2_ROIs.zip"%string]
       "/d/a_cells_mask.tif_cells_mask.tif"
       (spec_candidates "a_cells_mask.tif_cells_mask.tif"))
  = Some "a_cells_mask.tif"%string /\
  map (fun t => (t_id t, t_mask t))
    (fst (find_file_triplets "/d"
            ["sample1_ch1_cells_mask.tif"%string;
             "sample1_cells_mask.tif"%string;
             "sample1_C1_ROIs.zip"%string; "sample1_C2_ROIs.zip"%string]))
  = [("sample1", "/d/sample1_cells_mask.tif");
     ("sample1", "/d/sample1_ch1_cells_mask.tif")]%string.
Proof.
  repeat split; try reflexivity. discriminate.
Qed.

(** The nesting theorem at the configured radii, 4 and 20, on a row of
    29 labelled pixels and a background pixel, off-image pixels read as
    set: the point at column 0 is deep inside and inside, the point at
    column 15, which has the background pixel within 20 but not within 4,
    is inside and not deep inside. *)
Lemma deep_inside_implies_inside_witness :
  ((exists c' : counters,
       classify_step (fst (shape [repeat 1 29 ++ [0]]))
         (snd (shape [repeat 1 29 ++ [0]]))
         (erode_mask true [repeat 1 29 ++ [0]] erosion_pixels)
         (erode_mask true [repeat 1 29 ++ [0]] deep_erosion_pixels)
         {| c2_inside := 0; c2_deep_inside := 0; c2_outside := 0 |}
         (0, 0)%Q = Some c' /\
       (c2_deep_inside c' = 0 \/ c2_deep_inside c' = 0 + 1) /\
       (c2_deep_inside c' = 0 + 1 ->
        c2_inside c' = 0 + 1 /\ c2_outside c' = 0)) /\
   (forall (name : string) (c1_coords c2_coords : list point)
           (r : SampleResult),
       process_sample true erosion_pixels deep_erosion_pixels name
         [repeat 1 29 ++ [0]] c1_coords c2_coords = Some r ->
       Ch2_Deep_Inside r <= Ch2_Inside r)) /\
  classify_step 1 30
    (erode_mask true [repeat 1 29 ++ [0]] erosion_pixels)
    (erode_mask true [repeat 1 29 ++ [0]] deep_erosion_pixels)
    {| c2_inside := 0; c2_deep_inside := 0; c2_outside := 0 |} (0, 0)%Q
  = Some {| c2_inside := 1; c2_deep_inside := 1; c2_outside := 0 |} /\
  classify_step 1 30
    (erode_mask true [repeat 1 29 ++ [0]] erosion_pixels)
    (erode_mask true [repeat 1 29 ++ [0]] deep_erosion_pixels)
    {| c2_inside := 0; c2_deep_inside := 0; c2_outside := 0 |} (0, 15)%Q
  = Some {| c2_inside := 1; c2_deep_inside := 0; c2_outside := 0 |}.
Proof.
  split; [| split; vm_compute; reflexivity].
  apply (deep_inside_implies_inside true erosion_pixels deep_erosion_pixels
           [repeat 1 29 ++ [0]]
           {| c2_inside := 0; c2_deep_inside := 0; c2_outside := 0 |}
           (0, 0)%Q);
    unfold erosion_pixels, deep_erosion_pixels; lia.
Defined.

(** ** Worked examples *)

Example py_round_ties :
  map py_round [1 # 2; 3 # 2; 5 # 2; - (1 # 2); - (3 # 2); 7 # 4; - (7 # 4)]%Q
  = [0; 2; 2; 0; -2; 2; -2].
Proof. reflexivity. Qed.

Example disk_radius_1 :
  disk 1 = [[false; true; false]; [true; true; true]; [false; true; false]].
Proof. reflexivity. Qed.

Example unique_candidates_cell_mask :
  unique_candidates "Saline_Gastro_01_cell_mask.tif"
  = ["Saline_Gastro_01"%string].
Proof. reflexivity. Qed.

Example find_file_triplets_sample1 :
  find_file_triplets "/data"
    ["sample1_ch1_cells_mask.tif"%string; "sample1_C1_ROIs.zip"%string;
     "sample1_C2_ROIs.zip"%string; "lonely_cell_mask.tif"%string]
  = ([{| t_id := "sample1";
         t_mask := "/data/sample1_ch1_cells_mask.tif";
         t_c1_roi := "/data/sample1_C1_ROIs.zip";
         t_c2_roi := "/data/sample1_C2_ROIs.zip" |}],
     ["Warning: Could not find ROI pairs for mask: lonely_cell_mask.tif"%string]).
Proof. vm_compute. reflexivity. Qed.

Example cell_count_of_labels :
  cell_count_of [[0; 7; 7; 0]; [2; 7; 0; 2]; [0; 0; 9; 9]] = 3.
Proof. reflexivity. Qed.

(** A 3 x 3 cell in a 5 x 5 field, radii 0 and 1: the centre is deep
    inside, a pixel on the rim of the cell is inside only, a background
    pixel and a point off the image are outside. *)
Example process_sample_square :
  process_sample false 0 1 "s"
    [[0; 0; 0; 0; 0]; [0; 4; 4; 4; 0]; [0; 4; 4; 4; 0]; [0; 4; 4; 4; 0];
     [0; 0; 0; 0; 0]]
    [(1, 1)%Q]
    [(2, 2)%Q; (1 # 1, 5 # 2)%Q; (0, 0)%Q; (9, 9)%Q; (- (3 # 4), 1)%Q]
  = Some {| Filename := "s"; Cell_Count := 1; Ch1_Spots := 1;
            Ch2_Spots_Total := 5; Ch2_Inside := 2; Ch2_Deep_Inside := 1;
            Ch2_Outside := 3 |}.
Proof. vm_compute. reflexivity. Qed.

(** * Further properties *)

(** ** The interior mask *)

Lemma rect_fromfunction {A : Type} (h w : Z) (f : Z -> Z -> A) :
  rect (fromfunction h w f).
Proof.
  unfold rect, fromfunction. apply Forall_forall. intros row Hrow.
  apply in_map_iff in Hrow. destruct Hrow as [y [E Hy]]. subst row.
  rewrite length_map. destruct (arange 0 h) as [| a L]; [destruct Hy |].
  cbn [map hd]. rewrite length_map. reflexivity.
Qed.

Lemma shape_empty_rows {A : Type} (a : array2 A) :
  fst (shape a) = 0 -> snd (shape a) = 0.
Proof.
  unfold shape. cbn [fst snd]. destruct a; cbn [length hd]; lia.
Qed.

(** X1. The interior mask has the shape of the mask it was made from, and
    is rectangular, whatever the radius. *)
Theorem erode_mask_shape (border : bool) (mask : array2 Z) (pixels : Z) :
  shape (erode_mask border mask pixels) = shape mask /\
  rect (erode_mask border mask pixels).
Proof.
  unfold erode_mask, binary_erosion. rewrite shape_map_map.
  destruct (shape_nonneg mask) as [Hh Hw].
  pose proof (shape_empty_rows mask) as He.
  destruct (shape mask) as [h w]. cbn [fst snd] in *.
  split; [| apply rect_fromfunction].
  rewrite shape_fromfunction by assumption.
  destruct (Z.eqb_spec h 0) as [E | N]; [rewrite (He E), E |]; reflexivity.
Qed.

(** A pixel of the binarized mask, read the way the erosion reads it. *)
Lemma binarized_pixel_foreground (mask : array2 Z) (y x : Z) :
  0 <= y < fst (shape mask) -> 0 <= x < snd (shape mask) ->
  (nth (Z.to_nat x) (nth (Z.to_nat y) (map (map (fun v => 0 <? v)) mask) [])
     false = true <->
   foreground mask y x).
Proof.
  intros Hy Hx. unfold foreground, getitem.
  destruct (shape mask) as [h w] eqn:Es. cbn [fst snd] in Hy, Hx.
  rewrite (norm_index_in_range h y Hy), (norm_index_in_range w x Hx).
  replace (nth (Z.to_nat y) (map (map (fun v => 0 <? v)) mask) [])
    with (map (fun v => 0 <? v) (nth (Z.to_nat y) mask []))
    by (symmetry; apply (map_nth (map (fun v => 0 <? v)) mask [])).
  set (row := nth (Z.to_nat y) mask []).
  destruct (nth_error row (Z.to_nat x)) as [v |] eqn:En.
  - rewrite (nth_error_nth (map (fun v => 0 <? v) row) (Z.to_nat x) false
               (x := 0 <? v))
      by (rewrite nth_error_map, En; reflexivity).
    rewrite Z.ltb_lt. split.
    + intros H. exists v. auto.
    + intros [v' [E H]]. inversion E; subst. exact H.
  - apply nth_error_None in En.
    rewrite nth_overflow by (rewrite length_map; exact En).
    split; [discriminate | intros [v' [E _]]; discriminate].
Qed.

Lemma pixel_or_border_foreground (border : bool) (mask : array2 Z) (y x : Z) :
  0 <= y < fst (shape mask) -> 0 <= x < snd (shape mask) ->
  (pixel_or_border border (map (map (fun v => 0 <? v)) mask) y x = true <->
   foreground mask y x).
Proof.
  intros Hy Hx. rewrite <- (binarized_pixel_foreground mask y x Hy Hx).
  unfold pixel_or_border. rewrite shape_map_map.
  destruct (shape mask) as [h w]. cbn [fst snd] in Hy, Hx.
  replace ((0 <=? y) && (y <? h) && (0 <=? x) && (x <? w)) with true.
  - reflexivity.
  - symmetry. rewrite !andb_true_iff, !Z.leb_le, !Z.ltb_lt. lia.
Qed.

Lemma pixel_or_border_outside (border : bool) (image : array2 bool) (y x : Z) :
  ~ (0 <= y < fst (shape image) /\ 0 <= x < snd (shape image)) ->
  pixel_or_border border image y x = border.
Proof.
  intros H. unfold pixel_or_border. destruct (shape image) as [h w].
  cbn [fst snd] in H.
  destruct ((0 <=? y) && (y <? h) && (0 <=? x) && (x <? w)) eqn:E;
    [| reflexivity].
  exfalso. apply H. rewrite !andb_true_iff, !Z.leb_le, !Z.ltb_lt in E. lia.
Qed.

Lemma disk_offsets_centre (r : Z) :
  0 <= r -> In (0, 0) (footprint_offsets (disk r)).
Proof. intros H. apply In_disk_offsets; [exact H | nia]. Qed.

Lemma norm_index_same (n i : Z) (k : nat) :
  norm_index n i = Some k -> norm_index n (Z.of_nat k) = Some k.
Proof.
  intros H. pose proof (norm_index_bound n i k H) as B.
  rewrite norm_index_in_range by lia. rewrite Nat2Z.id. reflexivity.
Qed.

Lemma getitem_normalised {A : Type} (a : array2 A) (y x : Z) (i j : nat) :
  norm_index (fst (shape a)) y = Some i ->
  norm_index (snd (shape a)) x = Some j ->
  getitem a y x = getitem a (Z.of_nat i) (Z.of_nat j).
Proof.
  intros Hi Hj. unfold getitem. destruct (shape a) as [h w].
  cbn [fst snd] in Hi, Hj.
  rewrite Hi, Hj, (norm_index_same _ _ _ Hi), (norm_index_same _ _ _ Hj).
  reflexivity.
Qed.

Lemma eroded_pixel_centre (border : bool) (mask : array2 Z) (pixels y x : Z) :
  0 <= pixels ->
  0 <= y < fst (shape mask) -> 0 <= x < snd (shape mask) ->
  eroded_pixel border (map (map (fun v => 0 <? v)) mask)
    (footprint_offsets (disk pixels)) y x = true ->
  foreground mask y x.
Proof.
  intros Hr Hy Hx Hp. unfold eroded_pixel in Hp. rewrite forallb_forall in Hp.
  specialize (Hp (0, 0) (disk_offsets_centre pixels Hr)). cbn beta iota in Hp.
  rewrite !Z.add_0_r in Hp.
  apply pixel_or_border_foreground in Hp; assumption.
Qed.

(** X2. For a radius of at least 0 the interior lies within the labelled
    region: where the interior mask is true the mask holds a positive
    label. *)
Theorem erode_mask_within_foreground (border : bool) (mask : array2 Z)
    (pixels y x : Z) :
  0 <= pixels ->
  getitem (erode_mask border mask pixels) y x = Some true ->
  foreground mask y x.
Proof.
  intros Hr. rewrite getitem_erode_mask.
  destruct (norm_index (fst (shape mask)) y) as [i |] eqn:Ei; [| discriminate].
  destruct (norm_index (snd (shape mask)) x) as [j |] eqn:Ej; [| discriminate].
  intros H. inversion H as [Hp]. clear H.
  pose proof (norm_index_bound _ _ _ Ei) as Bi.
  pose proof (norm_index_bound _ _ _ Ej) as Bj.
  apply eroded_pixel_centre in Hp; [| exact Hr | lia | lia].
  unfold foreground in *. rewrite (getitem_normalised mask y x i j Ei Ej).
  exact Hp.
Qed.

Lemma erode_mask_within_foreground_witness :
  foreground [[0; 0; 0]; [0; 6; 0]; [0; 0; 0]] 1 1.
Proof.
  apply (erode_mask_within_foreground true [[0; 0; 0]; [0; 6; 0]; [0; 0; 0]]
           0 1 1); [lia | reflexivity].
Defined.

Lemma Forall2_nth_error {A B : Type} (R : A -> B -> Prop) (l1 : list A)
    (l2 : list B) (i : nat) (a : A) :
  Forall2 R l1 l2 -> nth_error l1 i = Some a ->
  exists b, nth_error l2 i = Some b /\ R a b.
Proof.
  intros H. revert i. induction H as [| x y l1 l2 Hxy H IH]; intros i Hi.
  - destruct i; discriminate.
  - destruct i as [| i]; cbn [nth_error] in *.
    + inversion Hi; subst. exists y. auto.
    + apply IH, Hi.
Qed.

Lemma Forall2_shape {A B : Type} (R : A -> B -> Prop) (m1 : array2 A)
    (m2 : array2 B) :
  Forall2 (Forall2 R) m1 m2 -> shape m1 = shape m2.
Proof.
  intros H. unfold shape. rewrite (Forall2_length H).
  destruct H as [| r1 r2 m1 m2 Hr H]; [reflexivity |].
  cbn [hd]. rewrite (Forall2_length Hr). reflexivity.
Qed.

Lemma foreground_nth_error (mask : array2 Z) (y x : Z) :
  0 <= y < fst (shape mask) -> 0 <= x < snd (shape mask) ->
  (foreground mask y x <->
   exists row v, nth_error mask (Z.to_nat y) = Some row /\
                 nth_error row (Z.to_nat x) = Some v /\ 0 < v).
Proof.
  intros Hy Hx. unfold foreground, getitem.
  destruct (shape mask) as [h w] eqn:Es. cbn [fst snd] in Hy, Hx.
  rewrite (norm_index_in_range h y Hy), (norm_index_in_range w x Hx).
  assert (Hlen : (Z.to_nat y < length mask)%nat).
  { unfold shape in Es. inversion Es. lia. }
  destruct (nth_error mask (Z.to_nat y)) as [row |] eqn:Er.
  - rewrite (nth_error_nth mask (Z.to_nat y) [] Er). split.
    + intros [v [E H]]. exists row, v. auto.
    + intros (row' & v & E1 & E2 & H). inversion E1; subst. exists v. auto.
  - apply nth_error_None in Er. lia.
Qed.

(** X3. Erosion is monotone in the mask: when two masks of one shape are
    such that every label of the first sits on a label of the second, the
    interior of the first lies within the interior of the second. *)
Theorem erode_mask_monotone (border : bool) (mask1 mask2 : array2 Z)
    (pixels y x : Z) :
  Forall2 (Forall2 (fun a b => 0 < a -> 0 < b)) mask1 mask2 ->
  getitem (erode_mask border mask1 pixels) y x = Some true ->
  getitem (erode_mask border mask2 pixels) y x = Some true.
Proof.
  intros Hm. pose proof (Forall2_shape _ _ _ Hm) as Hs.
  rewrite !getitem_erode_mask, <- Hs.
  destruct (norm_index (fst (shape mask1)) y) as [i |]; [| discriminate].
  destruct (norm_index (snd (shape mask1)) x) as [j |]; [| discriminate].
  intros H. inversion H as [Hp]. clear H. rewrite Hp. f_equal.
  unfold eroded_pixel in *. rewrite forallb_forall in *.
  intros [dy dx] Hd. specialize (Hp (dy, dx) Hd). cbn beta iota in *.
  set (y' := Z.of_nat i + dy) in *. set (x' := Z.of_nat j + dx) in *.
  destruct (in_bounds (fst (shape mask1)) (snd (shape mask1)) y' x') eqn:Hb.
  - apply in_bounds_spec in Hb. destruct Hb as [Hy Hx].
    apply pixel_or_border_foreground; [rewrite <- Hs; exact Hy
                                      | rewrite <- Hs; exact Hx |].
    apply pixel_or_border_foreground in Hp; [| exact Hy | exact Hx].
    apply foreground_nth_error in Hp; [| exact Hy | exact Hx].
    destruct Hp as (row & v & Er & Ev & Hv).
    destruct (Forall2_nth_error _ _ _ _ _ Hm Er) as (row' & Er' & Hrow).
    destruct (Forall2_nth_error _ _ _ _ _ Hrow Ev) as (v' & Ev' & Hvv).
    apply foreground_nth_error; [rewrite <- Hs; exact Hy
                                | rewrite <- Hs; exact Hx |].
    exists row', v'. auto.
  - assert (Hout : ~ (0 <= y' < fst (shape mask1) /\
                      0 <= x' < snd (shape mask1))).
    { intros Hin. apply in_bounds_spec in Hin. congruence. }
    rewrite pixel_or_border_outside in Hp by (rewrite shape_map_map; exact Hout).
    rewrite pixel_or_border_outside
      by (rewrite shape_map_map, <- Hs; exact Hout).
    exact Hp.
Qed.

Lemma erode_mask_monotone_witness :
  getitem (erode_mask true [[1; 1]; [1; 9]] 1) 1 1 = Some true.
Proof.
  apply (erode_mask_monotone true [[0; 3]; [3; 3]] [[1; 1]; [1; 9]] 1 1 1).
  - repeat constructor; lia.
  - reflexivity.
Defined.

(** X4. Where the disk fits on the image the interior does not depend on
    how the border is treated: the pixel is interior exactly when every
    pixel within Euclidean distance [pixels] of it holds a label. *)
Theorem erode_mask_disk_on_image (border : bool) (mask : array2 Z)
    (pixels y x : Z) :
  0 <= pixels ->
  pixels <= y -> y + pixels < fst (shape mask) ->
  pixels <= x -> x + pixels < snd (shape mask) ->
  (getitem (erode_mask border mask pixels) y x = Some true <->
   forall dy dx : Z,
     dx * dx + dy * dy <= pixels * pixels -> foreground mask (y + dy) (x + dx)).
Proof.
  intros Hr Hy1 Hy2 Hx1 Hx2.
  rewrite getitem_erode_mask_in_range by lia.
  unfold eroded_pixel. split.
  - intros H dy dx Hd. inversion H as [Hp]. rewrite forallb_forall in Hp.
    assert (Hin : In (dy, dx) (footprint_offsets (disk pixels))).
    { apply In_disk_offsets; [exact Hr | nia]. }
    specialize (Hp (dy, dx) Hin). cbn beta iota in Hp.
    apply pixel_or_border_foreground in Hp; [exact Hp | nia | nia].
  - intros H. f_equal. apply forallb_forall. intros [dy dx] Hd.
    apply In_disk_offsets in Hd; [| exact Hr].
    apply pixel_or_border_foreground; [nia | nia |]. apply H. lia.
Qed.

Lemma erode_mask_disk_on_image_witness :
  getitem (erode_mask false [[2; 2; 2]; [2; 2; 2]; [2; 2; 2]] 1) 1 1
  = Some true <->
  forall dy dx : Z,
    dx * dx + dy * dy <= 1 * 1 ->
    foreground [[2; 2; 2]; [2; 2; 2]; [2; 2; 2]] (1 + dy) (1 + dx).
Proof.
  apply (erode_mask_disk_on_image false [[2; 2; 2]; [2; 2; 2]; [2; 2; 2]]
           1 1 1); cbn; lia.
Defined.

Lemma disk_offsets_neighbours (r : Z) :
  1 <= r ->
  In (-1, 0) (footprint_offsets (disk r)) /\
  In (1, 0) (footprint_offsets (disk r)) /\
  In (0, -1) (footprint_offsets (disk r)) /\
  In (0, 1) (footprint_offsets (disk r)).
Proof.
  intros H. repeat split; apply In_disk_offsets; try lia; nia.
Qed.

(** X5. What the interior is at the edge of the image is decided by the
    border value of the erosion alone. With pixels off the image read as
    set (what skimage does) a mask that is labelled everywhere is its own
    interior at every radius; with pixels off the image read as background
    no pixel on the edge of the image is interior at a radius of 1 or
    more. *)
Theorem erode_mask_image_edge (mask : array2 Z) (pixels y x : Z) :
  0 <= y < fst (shape mask) -> 0 <= x < snd (shape mask) ->
  (rect mask -> Forall (Forall (fun v => 0 < v)) mask ->
   getitem (erode_mask true mask pixels) y x = Some true) /\
  (1 <= pixels ->
   y = 0 \/ x = 0 \/ y = fst (shape mask) - 1 \/ x = snd (shape mask) - 1 ->
   getitem (erode_mask false mask pixels) y x = Some false).
Proof.
  intros Hy Hx. rewrite !getitem_erode_mask_in_range by assumption. split.
  - intros Hrect Hall. f_equal. unfold eroded_pixel.
    apply forallb_forall. intros [dy dx] _.
    destruct (in_bounds (fst (shape mask)) (snd (shape mask)) (y + dy) (x + dx))
      eqn:Hb.
    + apply in_bounds_spec in Hb. destruct Hb as [Hy' Hx'].
      apply pixel_or_border_foreground; [exact Hy' | exact Hx' |].
      apply foreground_nth_error; [exact Hy' | exact Hx' |].
      assert (Hlen : (Z.to_nat (y + dy) < length mask)%nat)
        by (unfold shape in Hy'; cbn [fst] in Hy'; lia).
      destruct (nth_error mask (Z.to_nat (y + dy))) as [row |] eqn:Er;
        [| apply nth_error_None in Er; lia].
      pose proof (nth_error_In _ _ Er) as Hrow.
      assert (Hw : length row = length (hd [] mask)).
      { unfold rect in Hrect. rewrite Forall_forall in Hrect.
        apply Hrect, Hrow. }
      destruct (nth_error row (Z.to_nat (x + dx))) as [v |] eqn:Ev.
      * exists row, v. split; [reflexivity |]. split; [exact Ev |].
        rewrite Forall_forall in Hall. specialize (Hall row Hrow).
        rewrite Forall_forall in Hall. apply Hall. apply (nth_error_In _ _ Ev).
      * apply nth_error_None in Ev. unfold shape in Hx'. cbn [snd] in Hx'. lia.
    + apply pixel_or_border_outside. rewrite shape_map_map.
      intros Hin. apply in_bounds_spec in Hin. congruence.
  - intros Hr Hedge. f_equal. unfold eroded_pixel.
    destruct (disk_offsets_neighbours pixels Hr) as (Hn & Hs & Hw & He).
    apply not_true_is_false. intros Htrue. rewrite forallb_forall in Htrue.
    assert (Hout : forall dy dx,
               In (dy, dx) (footprint_offsets (disk pixels)) ->
               ~ (0 <= y + dy < fst (shape mask) /\
                  0 <= x + dx < snd (shape mask)) -> False).
    { intros dy dx Hin Hno. specialize (Htrue (dy, dx) Hin).
      cbn beta iota in Htrue.
      rewrite pixel_or_border_outside in Htrue
        by (rewrite shape_map_map; exact Hno).
      discriminate. }
    destruct Hedge as [E | [E | [E | E]]].
    + apply (Hout _ _ Hn). lia.
    + apply (Hout _ _ Hw). lia.
    + apply (Hout _ _ Hs). lia.
    + apply (Hout _ _ He). lia.
Qed.

Lemma erode_mask_image_edge_witness :
  (rect [[5; 5]; [5; 5]] -> Forall (Forall (fun v => 0 < v)) [[5; 5]; [5; 5]] ->
   getitem (erode_mask true [[5; 5]; [5; 5]] 20) 0 1 = Some true) /\
  (1 <= 20 ->
   0 = 0 \/ 1 = 0 \/ 0 = fst (shape [[5; 5]; [5; 5]]) - 1 \/
   1 = snd (shape [[5; 5]; [5; 5]]) - 1 ->
   getitem (erode_mask false [[5; 5]; [5; 5]] 20) 0 1 = Some false).
Proof.
  apply (erode_mask_image_edge [[5; 5]; [5; 5]] 20 0 1); cbn; lia.
Defined.

(** ** The counts of a sample *)

Lemma count_if_cons {A : Type} (f : A -> bool) (a : A) (l : list A) :
  count_if f (a :: l) = (if f a then 1 else 0) + count_if f l.
Proof.
  unfold count_if. cbn [filter]. destruct (f a); cbn [length]; lia.
Qed.

Lemma count_if_app {A : Type} (f : A -> bool) (l1 l2 : list A) :
  count_if f (l1 ++ l2) = count_if f l1 + count_if f l2.
Proof.
  unfold count_if. rewrite filter_app, length_app. lia.
Qed.

Lemma count_if_bounds {A : Type} (f : A -> bool) (l : list A) :
  0 <= count_if f l <= Z.of_nat (length l).
Proof.
  unfold count_if. pose proof (filter_length_le f l). lia.
Qed.

Lemma count_if_perm {A : Type} (f : A -> bool) (l1 l2 : list A) :
  Permutation l1 l2 -> count_if f l1 = count_if f l2.
Proof.
  intros H. induction H as [| a l1 l2 H IH | a b l | l1 l2 l3 H1 IH1 H2 IH2].
  - reflexivity.
  - rewrite !count_if_cons, IH. reflexivity.
  - rewrite !count_if_cons. lia.
  - rewrite IH1. exact IH2.
Qed.

Lemma count_if_none {A : Type} (f : A -> bool) (l : list A) :
  (forall a, In a l -> f a = false) -> count_if f l = 0.
Proof.
  intros H. induction l as [| a l IH]; [reflexivity |].
  rewrite count_if_cons, (H a (or_introl eq_refl)), IH; [reflexivity |].
  intros b Hb. apply H. right. exact Hb.
Qed.

Lemma lands_in_pixel (border : bool) (mask : array2 Z) (pixels : Z)
    (coord : point) :
  lands_in border mask pixels coord =
  in_bounds (fst (shape mask)) (snd (shape mask))
    (fst (pixel_address coord)) (snd (pixel_address coord)) &&
  eroded_pixel border (map (map (fun v => 0 <? v)) mask)
    (footprint_offsets (disk pixels))
    (fst (pixel_address coord)) (snd (pixel_address coord)).
Proof.
  unfold lands_in. destruct (pixel_address coord) as [y x]. cbn [fst snd].
  destruct (in_bounds _ _ y x) eqn:Hb; [| reflexivity].
  apply in_bounds_spec in Hb. destruct Hb as [Hy Hx].
  rewrite getitem_erode_mask_in_range by assumption. reflexivity.
Qed.

Lemma classify_points_counts (border : bool) (mask : array2 Z) (r1 r2 : Z)
    (c2_coords : list point) (c : counters) :
  classify_points (fst (shape mask)) (snd (shape mask))
    (erode_mask border mask r1) (erode_mask border mask r2) c c2_coords =
  Some {| c2_inside := c2_inside c + count_if (lands_in border mask r1) c2_coords;
          c2_deep_inside :=
            c2_deep_inside c + count_if (lands_in border mask r2) c2_coords;
          c2_outside :=
            c2_outside c +
            count_if (fun p => negb (lands_in border mask r1 p)) c2_coords |}.
Proof.
  revert c. induction c2_coords as [| coord rest IH]; intros c.
  - cbn [classify_points]. unfold count_if. cbn [filter length Z.of_nat].
    rewrite !Z.add_0_r. destruct c; reflexivity.
  - cbn [classify_points]. rewrite classify_step_erode, IH.
    rewrite !count_if_cons, !lands_in_pixel. f_equal.
    destruct (in_bounds _ _ _ _); cbn [andb negb];
      [destruct (eroded_pixel border _ (footprint_offsets (disk r1)) _ _);
       destruct (eroded_pixel border _ (footprint_offsets (disk r2)) _ _) |];
      cbn [c2_inside c2_deep_inside c2_outside negb]; f_equal; lia.
Qed.

Lemma process_sample_closed (border : bool) (std_pixels deep_pixels : Z)
    (name : string) (mask : array2 Z) (c1_coords c2_coords : list point) :
  process_sample border std_pixels deep_pixels name mask c1_coords c2_coords =
  Some {| Filename := name;
          Cell_Count := cell_count_of mask;
          Ch1_Spots := Z.of_nat (length c1_coords);
          Ch2_Spots_Total := Z.of_nat (length c2_coords);
          Ch2_Inside := count_if (lands_in border mask std_pixels) c2_coords;
          Ch2_Deep_Inside :=
            count_if (lands_in border mask deep_pixels) c2_coords;
          Ch2_Outside :=
            count_if (fun p => negb (lands_in border mask std_pixels p))
              c2_coords |}.
Proof.
  unfold process_sample.
  pose proof (classify_points_counts border mask std_pixels deep_pixels
                c2_coords
                {| c2_inside := 0; c2_deep_inside := 0; c2_outside := 0 |})
    as Hrun.
  destruct (shape mask) as [h w]. cbn [fst snd] in Hrun. rewrite Hrun.
  reflexivity.
Qed.

(** X6. The record of a sample in closed form: it carries the triplet's
    identifier and the cell count of the mask; the channel-1 total is the
    number of channel-1 points, which are not looked at otherwise; the
    inside and deep-inside counts are the numbers of channel-2 points
    whose rounded address is on the image and in the interior of the
    shallow and of the deep radius; the outside count is the number of
    the other points for the shallow radius. *)
Theorem process_sample_counts (border : bool) (std_pixels deep_pixels : Z)
    (name : string) (mask : array2 Z) (c1_coords c2_coords : list point) :
  exists r : SampleResult,
    process_sample border std_pixels deep_pixels name mask c1_coords c2_coords
    = Some r /\
    Filename r = name /\
    Cell_Count r = cell_count_of mask /\
    Ch1_Spots r = Z.of_nat (length c1_coords) /\
    Ch2_Inside r = count_if (lands_in border mask std_pixels) c2_coords /\
    Ch2_Deep_Inside r = count_if (lands_in border mask deep_pixels) c2_coords /\
    Ch2_Outside r =
      count_if (fun p => negb (lands_in border mask std_pixels p)) c2_coords.
Proof.
  rewrite process_sample_closed. eexists. split; [reflexivity |].
  cbn [Filename Cell_Count Ch1_Spots Ch2_Inside Ch2_Deep_Inside Ch2_Outside].
  repeat split.
Qed.

(** X7. The order of the channel-2 points does not matter: two coordinate
    arrays that hold the same points in a different order give the same
    record. *)
Theorem process_sample_order (border : bool) (std_pixels deep_pixels : Z)
    (name : string) (mask : array2 Z) (c1_coords c2_coords c2_coords' : list point) :
  Permutation c2_coords c2_coords' ->
  process_sample border std_pixels deep_pixels name mask c1_coords c2_coords' =
  process_sample border std_pixels deep_pixels name mask c1_coords c2_coords.
Proof.
  intros H. rewrite !process_sample_closed.
  rewrite (Permutation_length H).
  rewrite (count_if_perm (lands_in border mask std_pixels) _ _ H).
  rewrite (count_if_perm (lands_in border mask deep_pixels) _ _ H).
  rewrite (count_if_perm
             (fun p => negb (lands_in border mask std_pixels p)) _ _ H).
  reflexivity.
Qed.

Lemma process_sample_order_witness :
  process_sample true 0 1 "s" [[1; 1]; [1; 0]] [] [(9, 9)%Q; (0, 0)%Q] =
  process_sample true 0 1 "s" [[1; 1]; [1; 0]] [] [(0, 0)%Q; (9, 9)%Q].
Proof.
  apply (process_sample_order true 0 1 "s" [[1; 1]; [1; 0]] []
           [(0, 0)%Q; (9, 9)%Q] [(9, 9)%Q; (0, 0)%Q]).
  apply perm_swap.
Defined.

(** X8. Counting is additive: the channel-2 counts for two coordinate
    arrays put end to end are the sums of the counts for each. *)
Theorem process_sample_append (border : bool) (std_pixels deep_pixels : Z)
    (name : string) (mask : array2 Z) (c1_coords c2_a c2_b : list point) :
  exists ra rb r : SampleResult,
    process_sample border std_pixels deep_pixels name mask c1_coords c2_a
    = Some ra /\
    process_sample border std_pixels deep_pixels name mask c1_coords c2_b
    = Some rb /\
    process_sample border std_pixels deep_pixels name mask c1_coords
      (c2_a ++ c2_b) = Some r /\
    Ch2_Spots_Total r = Ch2_Spots_Total ra + Ch2_Spots_Total rb /\
    Ch2_Inside r = Ch2_Inside ra + Ch2_Inside rb /\
    Ch2_Deep_Inside r = Ch2_Deep_Inside ra + Ch2_Deep_Inside rb /\
    Ch2_Outside r = Ch2_Outside ra + Ch2_Outside rb.
Proof.
  rewrite !process_sample_closed. do 3 eexists.
  split; [reflexivity |]. split; [reflexivity |]. split; [reflexivity |].
  cbn [Ch2_Spots_Total Ch2_Inside Ch2_Deep_Inside Ch2_Outside].
  rewrite !count_if_app, length_app. repeat split; lia.
Qed.

(** X9. Every count of a record lies between 0 and its total: the cell
    count and the channel-1 total are not negative, and each of the
    inside, deep-inside and outside counts is between 0 and the number of
    channel-2 points, whatever the radii. *)
Theorem process_sample_bounds (border : bool) (std_pixels deep_pixels : Z)
    (name : string) (mask : array2 Z) (c1_coords c2_coords : list point) :
  exists r : SampleResult,
    process_sample border std_pixels deep_pixels name mask c1_coords c2_coords
    = Some r /\
    0 <= Cell_Count r /\ 0 <= Ch1_Spots r /\
    0 <= Ch2_Inside r <= Ch2_Spots_Total r /\
    0 <= Ch2_Deep_Inside r <= Ch2_Spots_Total r /\
    0 <= Ch2_Outside r <= Ch2_Spots_Total r.
Proof.
  rewrite process_sample_closed. eexists. split; [reflexivity |].
  cbn [Cell_Count Ch1_Spots Ch2_Spots_Total Ch2_Inside Ch2_Deep_Inside
       Ch2_Outside].
  pose proof (count_if_bounds (lands_in border mask std_pixels) c2_coords).
  pose proof (count_if_bounds (lands_in border mask deep_pixels) c2_coords).
  pose proof (count_if_bounds
                (fun p => negb (lands_in border mask std_pixels p)) c2_coords).
  unfold cell_count_of. lia.
Qed.

Lemma foreground_positive_label (mask : array2 Z) (y x : Z) :
  0 <= y < fst (shape mask) -> 0 <= x < snd (shape mask) ->
  foreground mask y x -> exists v, In v (concat mask) /\ 0 < v.
Proof.
  intros Hy Hx H. apply foreground_nth_error in H; [| exact Hy | exact Hx].
  destruct H as (row & v & Er & Ev & Hv). exists v. split; [| exact Hv].
  apply in_concat. exists row. split; eapply nth_error_In; eassumption.
Qed.

Lemma lands_in_positive_label (border : bool) (mask : array2 Z) (pixels : Z)
    (coord : point) :
  0 <= pixels -> lands_in border mask pixels coord = true ->
  exists v, In v (concat mask) /\ 0 < v.
Proof.
  intros Hr H. rewrite lands_in_pixel in H. apply andb_true_iff in H.
  destruct H as [Hb Hp]. apply in_bounds_spec in Hb. destruct Hb as [Hy Hx].
  apply (foreground_positive_label mask _ _ Hy Hx).
  apply (eroded_pixel_centre border mask pixels _ _ Hr Hy Hx Hp).
Qed.

(** X10. A mask without a positive label has no interior: for radii of at
    least 0 every channel-2 point of the sample is counted outside, and
    none inside or deep inside. *)
Theorem process_sample_no_label (border : bool) (std_pixels deep_pixels : Z)
    (name : string) (mask : array2 Z) (c1_coords c2_coords : list point) :
  0 <= std_pixels -> 0 <= deep_pixels ->
  Forall (Forall (fun v => v <= 0)) mask ->
  exists r : SampleResult,
    process_sample border std_pixels deep_pixels name mask c1_coords c2_coords
    = Some r /\
    Ch2_Inside r = 0 /\ Ch2_Deep_Inside r = 0 /\
    Ch2_Outside r = Ch2_Spots_Total r.
Proof.
  intros H1 H2 Hmask.
  assert (Hnone : forall pixels coord,
             0 <= pixels -> lands_in border mask pixels coord = false).
  { intros pixels coord Hr. apply not_true_is_false. intros H.
    destruct (lands_in_positive_label border mask pixels coord Hr H)
      as (v & Hin & Hv).
    apply in_concat in Hin. destruct Hin as (row & Hrow & Hvrow).
    rewrite Forall_forall in Hmask. specialize (Hmask row Hrow).
    rewrite Forall_forall in Hmask. specialize (Hmask v Hvrow). lia. }
  rewrite process_sample_closed. eexists. split; [reflexivity |].
  cbn [Ch2_Spots_Total Ch2_Inside Ch2_Deep_Inside Ch2_Outside].
  rewrite !count_if_none by (intros; apply Hnone; assumption).
  repeat split. unfold count_if. f_equal.
  induction c2_coords as [| p l IH]; [reflexivity |].
  cbn [filter]. rewrite (Hnone std_pixels p H1). cbn [negb length].
  rewrite IH. reflexivity.
Qed.

Lemma process_sample_no_label_witness :
  exists r : SampleResult,
    process_sample true 4 20 "s" [[0; 0]; [0; -3]] [] [(0, 0)%Q; (1, 1)%Q]
    = Some r /\
    Ch2_Inside r = 0 /\ Ch2_Deep_Inside r = 0 /\
    Ch2_Outside r = Ch2_Spots_Total r.
Proof.
  apply (process_sample_no_label true 4 20 "s" [[0; 0]; [0; -3]] []
           [(0, 0)%Q; (1, 1)%Q]); [lia | lia |].
  repeat constructor; lia.
Defined.

(** ** Rounding, again *)

Lemma py_round_bounds (q : Q) :
  (inject_Z (py_round q) - (1 # 2) <= q <= inject_Z (py_round q) + (1 # 2))%Q.
Proof.
  destruct (py_round_nearest q) as [H _]. apply Qabs_le_iff in H. lra.
Qed.

Lemma py_round_tie_even (q : Q) :
  (q == inject_Z (py_round q) + (1 # 2))%Q \/
  (q == inject_Z (py_round q) - (1 # 2))%Q ->
  Z.even (py_round q) = true.
Proof.
  destruct (py_round_nearest q) as [_ H]. intros E. apply H, Qabs_half.
  destruct E as [E | E]; [left | right]; lra.
Qed.

Lemma py_round_le_iff (q : Q) (k : Z) :
  py_round q <= k <->
  (q < inject_Z k + (1 # 2))%Q \/
  ((q == inject_Z k + (1 # 2))%Q /\ Z.even k = true).
Proof.
  pose proof (py_round_bounds q) as [Hlo Hhi].
  pose proof (py_round_tie_even q) as Htie.
  set (z := py_round q) in *. split.
  - intros Hz. rewrite Zle_Qle in Hz.
    destruct (Qlt_le_dec q (inject_Z k + (1 # 2))) as [Hlt | Hge];
      [left; exact Hlt | right].
    assert (Ek : z = k).
    { apply Z.le_antisymm; [rewrite Zle_Qle; exact Hz |].
      rewrite Zle_Qle. lra. }
    split; [lra |]. rewrite <- Ek. apply Htie. left. rewrite Ek. lra.
  - intros [Hlt | [He Hev]].
    + apply Z.lt_succ_r. rewrite Zlt_Qlt. unfold Z.succ.
      rewrite inject_Z_plus. change (inject_Z 1) with 1%Q. lra.
    + assert (Hz : z <= k + 1).
      { rewrite Zle_Qle, inject_Z_plus. change (inject_Z 1) with 1%Q. lra. }
      destruct (Z.eq_dec z (k + 1)) as [E | N]; [| lia]. exfalso.
      assert (Hzev : Z.even z = true).
      { apply Htie. right. rewrite E, inject_Z_plus.
        change (inject_Z 1) with 1%Q. lra. }
      rewrite E in Hzev. replace (k + 1) with (Z.succ k) in Hzev by lia.
      rewrite Z.even_succ, <- Z.negb_even, Hev in Hzev. discriminate.
Qed.

Lemma py_round_ge_iff (q : Q) (k : Z) :
  k <= py_round q <->
  (inject_Z k - (1 # 2) < q)%Q \/
  ((q == inject_Z k - (1 # 2))%Q /\ Z.even k = true).
Proof.
  pose proof (py_round_bounds q) as [Hlo Hhi].
  pose proof (py_round_tie_even q) as Htie.
  set (z := py_round q) in *. split.
  - intros Hz. rewrite Zle_Qle in Hz.
    destruct (Qlt_le_dec (inject_Z k - (1 # 2)) q) as [Hlt | Hge];
      [left; exact Hlt | right].
    assert (Ek : z = k).
    { apply Z.le_antisymm; [| rewrite Zle_Qle; exact Hz].
      rewrite Zle_Qle. lra. }
    split; [lra |]. rewrite <- Ek. apply Htie. right. rewrite Ek. lra.
  - intros [Hlt | [He Hev]].
    + apply Z.lt_pred_le. rewrite Zlt_Qlt. unfold Z.pred.
      rewrite inject_Z_plus. change (inject_Z (-1)) with (- (1))%Q. lra.
    + assert (Hz : k - 1 <= z).
      { rewrite Zle_Qle. unfold Z.sub. rewrite inject_Z_plus.
        change (inject_Z (- (1))) with (- (1))%Q. lra. }
      destruct (Z.eq_dec z (k - 1)) as [E | N]; [| lia]. exfalso.
      assert (Hzev : Z.even z = true).
      { apply Htie. left. rewrite E. unfold Z.sub. rewrite inject_Z_plus.
        change (inject_Z (- (1))) with (- (1))%Q. lra. }
      rewrite E in Hzev. replace k with (Z.succ (k - 1)) in Hev by lia.
      rewrite Z.even_succ, <- Z.negb_even, Hzev in Hev. discriminate.
Qed.

Lemma py_round_monotone (q q' : Q) :
  (q <= q')%Q -> py_round q <= py_round q'.
Proof.
  intros H. apply py_round_le_iff.
  destruct (proj1 (py_round_le_iff q' (py_round q')) (Z.le_refl _))
    as [Hlt | [He Hev]].
  - left. lra.
  - destruct (Qlt_le_dec q q') as [Hl | Hg]; [left; lra | right].
    split; [lra | exact Hev].
Qed.

Lemma py_round_integer (a : Z) : py_round (inject_Z a) = a.
Proof.
  apply Z.le_antisymm.
  - apply py_round_le_iff. left. lra.
  - apply py_round_ge_iff. left. lra.
Qed.

(** X11. Rounding to the pixel address keeps the order of coordinates and
    leaves integers alone: a point that is not above (not left of) another
    gets a row (column) that is not above (not left of) the other's, and a
    coordinate pair of integers is its own address. *)
Theorem pixel_address_monotone (coord coord' : point) :
  ((fst coord <= fst coord')%Q ->
   fst (pixel_address coord) <= fst (pixel_address coord')) /\
  ((snd coord <= snd coord')%Q ->
   snd (pixel_address coord) <= snd (pixel_address coord')) /\
  (forall a b : Z, pixel_address (inject_Z a, inject_Z b) = (a, b)).
Proof.
  unfold pixel_address. cbn [fst snd].
  split; [apply py_round_monotone |]. split; [apply py_round_monotone |].
  intros a b. rewrite !py_round_integer. reflexivity.
Qed.

Lemma on_axis_spec (n : Z) (q : Q) :
  0 <= py_round q < n <-> on_axis n q.
Proof.
  unfold on_axis.
  assert (Hn : (inject_Z (n - 1)%Z == inject_Z n - 1)%Q).
  { unfold Z.sub. rewrite inject_Z_plus. change (inject_Z (- (1))) with (- (1))%Q.
    lra. }
  assert (Hodd : Z.even (n - 1) = Z.odd n).
  { change (n - 1) with (Z.pred n). apply Z.even_pred. }
  change (inject_Z 0) with 0%Q.
  split.
  - intros [H0 H1].
    apply py_round_ge_iff in H0. change (inject_Z 0) with 0%Q in H0.
    assert (H1' : py_round q <= n - 1) by lia.
    apply py_round_le_iff in H1'. rewrite Hodd in H1'. split.
    + destruct H0 as [H0 | [H0 _]]; lra.
    + destruct H1' as [H1' | [H1' Ho]]; [left | right; split; [| exact Ho]]; lra.
  - intros [H0 H1]. split.
    + apply py_round_ge_iff. change (inject_Z 0) with 0%Q.
      destruct (Qlt_le_dec (0 - (1 # 2)) q) as [Hl | Hg];
        [left; exact Hl | right; split; [lra | reflexivity]].
    + assert (H1' : py_round q <= n - 1); [| lia].
      apply py_round_le_iff. rewrite Hodd.
      destruct H1 as [H1 | [H1 Ho]]; [left | right; split; [| exact Ho]]; lra.
Qed.

(** X12. Which coordinates fall on the image: the rounded address of a
    point is inside [0, H) x [0, W) exactly when each coordinate is at
    least -1/2 and below the axis length minus 1/2, or equal to that when
    the axis length is odd (ties go to the even index). *)
Theorem in_bounds_coordinates (h w : Z) (coord : point) :
  in_bounds h w (fst (pixel_address coord)) (snd (pixel_address coord)) = true
  <-> on_axis h (fst coord) /\ on_axis w (snd coord).
Proof.
  rewrite in_bounds_spec, <- !on_axis_spec. unfold pixel_address.
  cbn [fst snd]. reflexivity.
Qed.

(** ** Cell counting, again *)

Lemma cell_count_of_zero (mask : array2 Z) :
  cell_count_of mask = 0 <-> forall v, In v (concat mask) -> v = 0.
Proof.
  destruct (cell_ids_spec mask) as (Hnd & Hin & Hcount).
  set (cells := filter (fun v => negb (v =? 0)) (np_unique mask)) in *.
  rewrite Hcount. split.
  - intros Hz v Hv. destruct (Z.eq_dec v 0) as [E | N]; [exact E | exfalso].
    assert (Hc : In v cells) by (apply Hin; auto).
    destruct cells; [destruct Hc | cbn [length] in Hz; lia].
  - intros Hall. destruct cells as [| c cells']; [reflexivity | exfalso].
    assert (Hc : c <> 0 /\ In c (concat mask))
      by (apply Hin; left; reflexivity).
    destruct Hc as [Hc0 Hc]. apply Hc0, Hall, Hc.
Qed.

(** X13. The cell count is between 0 and the number of pixels, and it is
    0 exactly when every pixel of the mask is 0. *)
Theorem cell_count_zero_iff (mask : array2 Z) :
  0 <= cell_count_of mask <= Z.of_nat (length (concat mask)) /\
  (cell_count_of mask = 0 <-> forall v, In v (concat mask) -> v = 0).
Proof.
  split; [| apply cell_count_of_zero].
  destruct (cell_ids_spec mask) as (Hnd & Hin & Hcount).
  rewrite Hcount. split; [lia |].
  apply inj_le. apply NoDup_incl_length; [exact Hnd |].
  intros v Hv. apply Hin in Hv. tauto.
Qed.

(** ** Coordinate extraction, again *)

Lemma collect_error_inv (rois : list ImagejRoi) (coords : list point)
    (e : string) :
  snd (collect rois coords) = Some e ->
  exists roi, In roi rois /\ coordinates roi = Raise e.
Proof.
  revert coords. induction rois as [| roi rest IH]; intros coords;
    cbn [collect]; [discriminate |].
  destruct (coordinates roi) as [pts | e'] eqn:Ec.
  - intros H. destruct (IH _ H) as (r & Hr & Hc). exists r. split; [right |];
      assumption.
  - cbn [snd]. intros H. inversion H; subst. exists roi. split;
      [left; reflexivity | exact Ec].
Qed.

Lemma get_roi_coordinates_points (fromfile : string -> result roi_file)
    (roi_path : string) :
  snd (get_roi_coordinates fromfile roi_path) =
  points_before_failure (rois_of fromfile roi_path).
Proof.
  unfold get_roi_coordinates, rois_of.
  destruct (fromfile roi_path) as [[roi | rois] | e0]; [| | reflexivity].
  - pose proof (collect_points [roi] []) as Hp.
    destruct (collect [roi] []) as [coords [e |]]; exact Hp.
  - pose proof (collect_points rois []) as Hp.
    destruct (collect rois []) as [coords [e |]]; exact Hp.
Qed.

Lemma get_roi_coordinates_silent (fromfile : string -> result roi_file)
    (roi_path : string) :
  fst (get_roi_coordinates fromfile roi_path) = [] <->
  ~ decode_fails fromfile roi_path.
Proof.
  unfold get_roi_coordinates, decode_fails.
  destruct (fromfile roi_path) as [[roi | rois] | e0].
  - cbn [collect]. destruct (coordinates roi) as [pts | e] eqn:Ec; cbn [fst].
    + split; [intros _ [e He]; discriminate | reflexivity].
    + split; [discriminate | intros H; exfalso; apply H; exists e; reflexivity].
  - destruct (collect rois []) as [coords [e |]] eqn:Ecol; cbn [fst].
    + split; [discriminate |]. intros H. exfalso. apply H.
      destruct (collect_error_inv rois [] e) as (roi & Hr & Hc);
        [rewrite Ecol; reflexivity |].
      exists roi, e. auto.
    + split; [| reflexivity]. intros _ Hf.
      destruct (collect_error rois [] Hf) as [e He].
      rewrite Ecol in He. discriminate.
  - cbn [fst]. split; [discriminate | intros H; exfalso; apply H; exact I].
Qed.

(** X14. The extractor prints at most one line, and it prints one exactly
    when the decoding fails; in both cases the array returned holds the
    points of the ROIs that precede the first failing one. *)
Theorem get_roi_coordinates_report (fromfile : string -> result roi_file)
    (roi_path : string) :
  (fst (get_roi_coordinates fromfile roi_path) = [] <->
   ~ decode_fails fromfile roi_path) /\
  (length (fst (get_roi_coordinates fromfile roi_path)) <= 1)%nat /\
  snd (get_roi_coordinates fromfile roi_path) =
    points_before_failure (rois_of fromfile roi_path).
Proof.
  split; [apply get_roi_coordinates_silent |].
  split; [| apply get_roi_coordinates_points].
  unfold get_roi_coordinates.
  destruct (fromfile roi_path) as [[roi | rois] | e0]; cbn [fst length];
    [| | lia].
  - destruct (collect [roi] []) as [coords [e |]]; cbn [fst length]; lia.
  - destruct (collect rois []) as [coords [e |]]; cbn [fst length]; lia.
Qed.

Lemma points_before_failure_all (rois : list ImagejRoi) :
  (forall roi, In roi rois -> exists pts, coordinates roi = Ok pts) ->
  points_before_failure rois = all_rows rois.
Proof.
  unfold all_rows. induction rois as [| roi rest IH]; intros H;
    cbn [points_before_failure flat_map]; [reflexivity |].
  destruct (H roi (or_introl eq_refl)) as [pts Hp]. rewrite Hp.
  rewrite IH; [reflexivity |]. intros r Hr. apply H. right. exact Hr.
Qed.

(** X15. When nothing fails the extractor is complete: it returns the
    points of every ROI of the source, in the order of the ROIs, a bare
    pair counting as one row; a source that is one ROI is read like a
    list of one. *)
Theorem get_roi_coordinates_complete (fromfile : string -> result roi_file)
    (roi_path : string) :
  ~ decode_fails fromfile roi_path ->
  get_roi_coordinates fromfile roi_path =
    ([], all_rows (rois_of fromfile roi_path)) /\
  (forall (roi : ImagejRoi) (p : point),
      fromfile roi_path = Ok (Single roi) -> coordinates roi = Ok (Arr1 p) ->
      snd (get_roi_coordinates fromfile roi_path) = [p]).
Proof.
  intros Hok.
  assert (Hall : forall roi, In roi (rois_of fromfile roi_path) ->
                             exists pts, coordinates roi = Ok pts).
  { unfold decode_fails, rois_of in *.
    destruct (fromfile roi_path) as [[roi | rois] | e0].
    - intros r [E | []]. subst r.
      destruct (coordinates roi) as [pts | e]; [exists pts; reflexivity |].
      exfalso. apply Hok. exists e. reflexivity.
    - intros r Hr. destruct (coordinates r) as [pts | e] eqn:Ec;
        [exists pts; reflexivity |].
      exfalso. apply Hok. exists r, e. auto.
    - intros r []. }
  assert (E : get_roi_coordinates fromfile roi_path =
              ([], all_rows (rois_of fromfile roi_path))).
  { rewrite (surjective_pairing (get_roi_coordinates fromfile roi_path)).
    rewrite (proj2 (get_roi_coordinates_silent fromfile roi_path) Hok).
    rewrite get_roi_coordinates_points, points_before_failure_all by exact Hall.
    reflexivity. }
  split; [exact E |].
  intros roi p Hf Hc. rewrite E. unfold rois_of, all_rows. rewrite Hf.
  cbn [snd flat_map]. rewrite Hc. reflexivity.
Qed.

Lemma get_roi_coordinates_complete_witness :
  get_roi_coordinates
    (fun _ => Ok (Many [ {| coordinates := Ok (Arr1 (1, 2)%Q) |};
                         {| coordinates := Ok (Arr2 [(3, 4)%Q; (5, 6)%Q]) |} ]))
    "d/s_C2_ROIs.zip"
  = ([], [(1, 2)%Q; (3, 4)%Q; (5, 6)%Q]).
Proof.
  apply (get_roi_coordinates_complete
           (fun _ => Ok (Many [ {| coordinates := Ok (Arr1 (1, 2)%Q) |};
                                {| coordinates :=
                                     Ok (Arr2 [(3, 4)%Q; (5, 6)%Q]) |} ]))
           "d/s_C2_ROIs.zip").
  cbn. intros (roi & e & [E | [E | []]] & He); subst roi; discriminate.
Defined.

(** ** Sorting, again *)

Lemma ascii_compare_lt_trans (a b c : ascii) :
  Ascii.compare a b = Lt -> Ascii.compare b c = Lt -> Ascii.compare a c = Lt.
Proof.
  unfold Ascii.compare. rewrite !N.compare_lt_iff. apply N.lt_trans.
Qed.

Lemma string_compare_lt_trans (a b c : string) :
  String.compare a b = Lt -> String.compare b c = Lt -> String.compare a c = Lt.
Proof.
  revert b c. induction a as [| x a IH]; intros [| y b] [| z c];
    cbn [String.compare]; try discriminate; try reflexivity.
  destruct (Ascii.compare x y) eqn:Exy; [| | discriminate].
  - apply Ascii.compare_eq_iff in Exy. subst y.
    destruct (Ascii.compare x z); [apply IH | reflexivity | discriminate].
  - intros _. destruct (Ascii.compare y z) eqn:Eyz; [| | discriminate].
    + apply Ascii.compare_eq_iff in Eyz. subst z. rewrite Exy. reflexivity.
    + intros _. rewrite (ascii_compare_lt_trans x y z Exy Eyz). reflexivity.
Qed.

Lemma string_leb_trans (a b c : string) :
  String.leb a b = true -> String.leb b c = true -> String.leb a c = true.
Proof.
  unfold String.leb.
  destruct (String.compare a b) eqn:Eab; [| | discriminate].
  - apply String.compare_eq_iff in Eab. subst b. auto.
  - intros _. destruct (String.compare b c) eqn:Ebc; [| | discriminate].
    + apply String.compare_eq_iff in Ebc. subst c. rewrite Eab. reflexivity.
    + intros _. rewrite (string_compare_lt_trans a b c Eab Ebc). reflexivity.
Qed.

Section SortedUnique.

Variable A : Type.
Variable leb : A -> A -> bool.
Hypothesis leb_total : forall a b, leb a b = true \/ leb b a = true.
Hypothesis leb_antisym : forall a b, leb a b = true -> leb b a = true -> a = b.
Hypothesis leb_trans :
  forall a b c, leb a b = true -> leb b c = true -> leb a c = true.

Lemma leb_false_flip (a b : A) : leb a b = false -> leb b a = true.
Proof. intros H. destruct (leb_total a b) as [E | E]; congruence. Qed.

Lemma insert_sorted_comm (x y : A) (l : list A) :
  insert_sorted leb x (insert_sorted leb y l) =
  insert_sorted leb y (insert_sorted leb x l).
Proof.
  induction l as [| z l IH]; cbn [insert_sorted].
  - destruct (leb x y) eqn:Exy, (leb y x) eqn:Eyx; try reflexivity.
    + rewrite (leb_antisym x y Exy Eyx). reflexivity.
    + apply leb_false_flip in Exy. congruence.
  - destruct (leb y z) eqn:Eyz, (leb x z) eqn:Exz; cbn [insert_sorted].
    + destruct (leb x y) eqn:Exy, (leb y x) eqn:Eyx.
      * rewrite (leb_antisym x y Exy Eyx). reflexivity.
      * rewrite Eyz. reflexivity.
      * rewrite Exz. reflexivity.
      * apply leb_false_flip in Exy. congruence.
    + destruct (leb x y) eqn:Exy.
      * rewrite (leb_trans x y z Exy Eyz) in Exz. discriminate.
      * rewrite Exz, Eyz. reflexivity.
    + destruct (leb y x) eqn:Eyx.
      * rewrite (leb_trans y x z Eyx Exz) in Eyz. discriminate.
      * rewrite Exz, Eyz. reflexivity.
    + rewrite Exz, Eyz, IH. reflexivity.
Qed.

Lemma sorted_perm_eq (l l' : list A) :
  Permutation l l' -> sorted leb l = sorted leb l'.
Proof.
  intros H. induction H as [| a l l' H IH | a b l | l1 l2 l3 H1 IH1 H2 IH2];
    cbn [sorted fold_right].
  - reflexivity.
  - fold (sorted leb l). fold (sorted leb l'). rewrite IH. reflexivity.
  - apply insert_sorted_comm.
  - rewrite IH1. exact IH2.
Qed.

Lemma insert_sorted_strongly (x : A) (l : list A) :
  StronglySorted (fun a b => leb a b = true) l ->
  StronglySorted (fun a b => leb a b = true) (insert_sorted leb x l).
Proof.
  induction l as [| y l IH]; intros Hs; cbn [insert_sorted].
  - constructor; constructor.
  - inversion Hs as [| ? ? Hl Hy]; subst. destruct (leb x y) eqn:Exy.
    + constructor; [exact Hs |]. constructor; [exact Exy |].
      rewrite Forall_forall in *. intros v Hv.
      apply (leb_trans x y v Exy), Hy, Hv.
    + constructor; [apply IH, Hl |].
      rewrite Forall_forall in *. intros v Hv.
      apply (Permutation_in _ (insert_sorted_perm leb x l)) in Hv.
      destruct Hv as [E | Hv]; [subst; apply leb_false_flip, Exy | apply Hy, Hv].
Qed.

Lemma sorted_strongly (l : list A) :
  StronglySorted (fun a b => leb a b = true) (sorted leb l).
Proof.
  induction l as [| x l IH]; cbn [sorted fold_right].
  - constructor.
  - apply insert_sorted_strongly, IH.
Qed.

End SortedUnique.

(** ** Matching, again *)

Lemma find_file_triplets_flat (directory : string) (listing : list string) :
  find_file_triplets directory listing =
  (flat_map (fun m => match match_of directory listing m with
                      | Some t => [t]
                      | None => []
                      end) (possible_masks directory listing),
   flat_map (fun m => match match_of directory listing m with
                      | Some _ => []
                      | None => [warning_for (os_path_basename m)]
                      end) (possible_masks directory listing)).
Proof. unfold find_file_triplets. apply fold_match_step. Qed.

Lemma find_file_triplets_no_mask (directory : string)
    (listing : list string) :
  find_file_triplets directory listing = ([], []) <->
  possible_masks directory listing = [].
Proof.
  rewrite find_file_triplets_flat. split.
  - intros H.
    pose proof (length_flat_map_split (match_of directory listing)
                  (fun m => warning_for (os_path_basename m))
                  (possible_masks directory listing)) as Hlen.
    inversion H as [[H1 H2]]. rewrite H1, H2 in Hlen. cbn [length] in Hlen.
    destruct (possible_masks directory listing); [reflexivity |].
    cbn [length] in Hlen. lia.
  - intros H. rewrite H. reflexivity.
Qed.

(** X17. The matcher returns nothing and prints nothing exactly when the
    enumeration finds no mask; for a directory name that [glob] takes
    literally, that is exactly when the directory has no entry that ends
    in a recognized suffix and does not start with a dot (an empty
    directory is such a one). *)
Theorem find_file_triplets_nothing (directory : string)
    (listing : list string) :
  (find_file_triplets directory listing = ([], []) <->
   possible_masks directory listing = []) /\
  (plain_directory directory = true ->
   (find_file_triplets directory listing = ([], []) <->
    forall n, In n listing -> prefix "." n = true \/ recognized n = false)).
Proof.
  split; [apply find_file_triplets_no_mask |].
  intros _. rewrite find_file_triplets_no_mask. split.
  - intros H n Hn.
    destruct (prefix "." n) eqn:Hdot; [left; reflexivity | right].
    destruct (recognized n) eqn:Hrec; [exfalso | reflexivity].
    assert (Hin : In (os_path_join directory n)
                    (possible_masks directory listing)).
    { apply In_possible_masks. exists n. auto. }
    rewrite H in Hin. destruct Hin.
  - intros H.
    destruct (possible_masks directory listing) as [| p l] eqn:E;
      [reflexivity | exfalso].
    assert (Hp : In p (possible_masks directory listing))
      by (rewrite E; left; reflexivity).
    apply In_possible_masks in Hp.
    destruct Hp as (n & Hn & Hdot & Hrec & _).
    destruct (H n Hn); congruence.
Qed.

Lemma flat_map_matched_masks (directory : string)
    (listing masks : list string) :
  map t_mask
    (flat_map (fun m => match match_of directory listing m with
                        | Some t => [t]
                        | None => []
                        end) masks) =
  filter (matched directory listing) masks.
Proof.
  unfold matched. induction masks as [| m masks IH]; cbn [flat_map filter map];
    [reflexivity |].
  rewrite map_app, IH.
  destruct (match_of directory listing m) as [t |] eqn:Ht; [| reflexivity].
  cbn [map app]. rewrite (match_of_mask _ _ _ _ Ht). reflexivity.
Qed.

Lemma flat_map_unmatched_masks (directory : string)
    (listing masks : list string) :
  flat_map (fun m => match match_of directory listing m with
                     | Some _ => []
                     | None => [warning_for (os_path_basename m)]
                     end) masks =
  map (fun m => warning_for (os_path_basename m))
    (filter (fun m => negb (matched directory listing m)) masks).
Proof.
  unfold matched. induction masks as [| m masks IH]; cbn [flat_map filter map];
    [reflexivity |].
  rewrite IH. destruct (match_of directory listing m); reflexivity.
Qed.

(** X18. The triplets come one for each matched mask, in the order of the
    enumeration, and the warnings one for each unmatched mask, in that
    order too; so no two triplets share a mask. *)
Theorem find_file_triplets_order (directory : string)
    (listing : list string) :
  map t_mask (fst (find_file_triplets directory listing)) =
    filter (matched directory listing) (possible_masks directory listing) /\
  snd (find_file_triplets directory listing) =
    map (fun m => warning_for (os_path_basename m))
      (filter (fun m => negb (matched directory listing m))
         (possible_masks directory listing)) /\
  NoDup (map t_mask (fst (find_file_triplets directory listing))).
Proof.
  rewrite find_file_triplets_flat. cbn [fst snd].
  rewrite flat_map_matched_masks, flat_map_unmatched_masks.
  split; [reflexivity |]. split; [reflexivity |].
  apply NoDup_filter, NoDup_possible_masks.
Qed.

Lemma existsb_same_elements {A : Type} (f : A -> bool) (l l' : list A) :
  (forall a, In a l <-> In a l') -> existsb f l = existsb f l'.
Proof.
  intros H. destruct (existsb f l) eqn:E; symmetry.
  - apply existsb_exists in E. destruct E as [a [Ha Hf]].
    apply existsb_exists. exists a. split; [apply H, Ha | exact Hf].
  - apply not_true_is_false. intros E'. apply existsb_exists in E'.
    destruct E' as [a [Ha Hf]].
    assert (Et : existsb f l = true)
      by (apply existsb_exists; exists a; split; [apply H, Ha | exact Hf]).
    congruence.
Qed.

Lemma first_match_same_elements (directory : string) (l l' : list string)
    (mask_path : string) (candidates : list string) :
  (forall n, In n l <-> In n l') ->
  first_match directory l mask_path candidates =
  first_match directory l' mask_path candidates.
Proof.
  intros H. induction candidates as [| c rest IH]; cbn [first_match];
    [reflexivity |].
  unfold both_exist, os_path_exists.
  rewrite (existsb_same_elements _ l l' H).
  rewrite (existsb_same_elements
             (fun n => String.eqb (c2_path_of directory c)
                         (os_path_join directory n)) l l' H).
  fold (os_path_exists directory l' (c1_path_of directory c)).
  fold (os_path_exists directory l' (c2_path_of directory c)).
  fold (both_exist directory l' c).
  destruct (both_exist directory l' c); [reflexivity | exact IH].
Qed.

Lemma possible_masks_same_elements (directory : string) (l l' : list string) :
  (forall n, In n l <-> In n l') ->
  possible_masks directory l = possible_masks directory l'.
Proof.
  intros H. unfold possible_masks.
  apply (sorted_perm_eq string String.leb String.leb_total String.leb_antisym
           string_leb_trans).
  apply NoDup_Permutation; try apply NoDup_nodup.
  intros p. unfold list_set. rewrite !nodup_In, !in_app_iff.
  unfold glob_suffix. rewrite !in_map_iff.
  assert (Hf : forall sfx n,
             In n (filter (fun n => negb (prefix "." n) && ends_with sfx n) l)
             <-> In n (filter (fun n => negb (prefix "." n) && ends_with sfx n)
                         l')).
  { intros sfx n. rewrite !filter_In, H. reflexivity. }
  split; (intros [[n [E Hn]] | [n [E Hn]]];
          [left | right]; exists n; (split; [exact E | apply Hf, Hn])).
Qed.

(** X19. The result does not depend on the order in which the directory
    is listed, nor on an entry being listed twice: two listings with the
    same entries give the same triplets and the same warnings, in the
    same order. *)
Theorem find_file_triplets_listing_order (directory : string)
    (listing listing' : list string) :
  (forall n, In n listing <-> In n listing') ->
  find_file_triplets directory listing' = find_file_triplets directory listing.
Proof.
  intros H. rewrite !find_file_triplets_flat.
  rewrite (possible_masks_same_elements directory listing listing' H).
  assert (Hm : forall m, match_of directory listing m =
                         match_of directory listing' m).
  { intros m. unfold match_of. apply first_match_same_elements, H. }
  f_equal; apply flat_map_ext; intros m; rewrite Hm; reflexivity.
Qed.

Lemma find_file_triplets_listing_order_witness :
  find_file_triplets "/d"
    ["s_C2_ROIs.zip"%string; "s_cell_mask.tif"%string; "s_C1_ROIs.zip"%string;
     "s_cell_mask.tif"%string] =
  find_file_triplets "/d"
    ["s_cell_mask.tif"%string; "s_C1_ROIs.zip"%string; "s_C2_ROIs.zip"%string].
Proof.
  apply (find_file_triplets_listing_order "/d"
           ["s_cell_mask.tif"%string; "s_C1_ROIs.zip"%string;
            "s_C2_ROIs.zip"%string]
           ["s_C2_ROIs.zip"%string; "s_cell_mask.tif"%string;
            "s_C1_ROIs.zip"%string; "s_cell_mask.tif"%string]).
  intros n. cbn [In]. tauto.
Defined.

(** ** Candidates, again *)

Lemma first_seen_In (l : list string) (c : string) :
  In c (first_seen l) <-> In c l.
Proof.
  induction l as [| x l IH]; cbn [first_seen In]; [reflexivity |].
  rewrite filter_In, IH. destruct (String.eqb_spec c x) as [E | N];
    cbn [negb]; split.
  - intros [H | [H _]]; [left; exact H | right; exact H].
  - intros _. left. symmetry. exact E.
  - intros [H | [H _]]; [left; exact H | right; exact H].
  - intros [H | H]; [left; exact H | right; split; [exact H | reflexivity]].
Qed.

Lemma first_seen_NoDup (l : list string) : NoDup (first_seen l).
Proof.
  induction l as [| x l IH]; cbn [first_seen]; constructor.
  - rewrite filter_In, String.eqb_refl. cbn [negb]. intros [_ H]. discriminate.
  - apply NoDup_filter, IH.
Qed.

Lemma first_seen_length (l : list string) :
  (length (first_seen l) <= length l)%nat.
Proof.
  induction l as [| x l IH]; cbn [first_seen length]; [lia |].
  pose proof (filter_length_le (fun y => negb (String.eqb y x)) (first_seen l)).
  lia.
Qed.

Lemma candidates_of_length (filename : string) :
  (1 <= length (candidates_of filename) <= 4)%nat.
Proof.
  unfold candidates_of. rewrite !length_app.
  destruct (str_in "_ch1_cells_mask.tif" filename),
    (str_in "_cells_mask.tif" filename), (str_in "_cell_mask.tif" filename);
    cbn [length]; lia.
Qed.

(** X20. The candidates of a mask name are never none and never more than
    four, none is repeated, the fallback (the name without its last two
    underscore segments) is always one of them, and they are the
    identifiers derived from the name, neither more nor less. *)
Theorem unique_candidates_invariants (filename : string) :
  NoDup (unique_candidates filename) /\
  (1 <= length (unique_candidates filename) <= 4)%nat /\
  In (rsplit_head "_" 2 filename) (unique_candidates filename) /\
  (forall c, In c (unique_candidates filename) <-> In c (candidates_of filename)).
Proof.
  unfold unique_candidates. rewrite unique_of_first_seen.
  pose proof (candidates_of_length filename) as Hlen.
  pose proof (first_seen_length (candidates_of filename)) as Hle.
  assert (Hfb : In (rsplit_head "_" 2 filename) (candidates_of filename)).
  { unfold candidates_of. rewrite !in_app_iff. right. right. right.
    left. reflexivity. }
  split; [apply first_seen_NoDup |]. split; [| split].
  - split; [| lia].
    apply first_seen_In in Hfb.
    destruct (first_seen (candidates_of filename)); [destruct Hfb |].
    cbn [length]. lia.
  - apply first_seen_In, Hfb.
  - intros c. apply first_seen_In.
Qed.

Lemma replace_from_chars (old : string) (k : nat) (s : string) (c : ascii) :
  In c (list_ascii_of_string (replace_from old "" k s)) ->
  In c (list_ascii_of_string s).
Proof.
  revert k. induction s as [| a s IH]; intros k; cbn [replace_from].
  - intros H. exact H.
  - destruct k as [| k].
    + destruct (prefix old (String a s)).
      * cbn [String.append list_ascii_of_string]. intros H. right.
        apply (IH _ H).
      * cbn [list_ascii_of_string]. intros [E | H]; [left; exact E |].
        right. apply (IH _ H).
    + cbn [list_ascii_of_string]. intros H. right. apply (IH _ H).
Qed.

Lemma after_first_chars (sep : ascii) (l r : list ascii) (c : ascii) :
  after_first sep l = Some r -> In c r -> In c l.
Proof.
  revert r. induction l as [| a l IH]; intros r; cbn [after_first];
    [discriminate |].
  destruct (Ascii.eqb a sep).
  - intros E Hc. inversion E; subst. right. exact Hc.
  - intros E Hc. right. apply (IH r E Hc).
Qed.

Lemma cut_segments_chars (sep : ascii) (n : nat) (l : list ascii) (c : ascii) :
  In c (cut_segments sep n l) -> In c l.
Proof.
  revert l. induction n as [| n IH]; intros l; cbn [cut_segments];
    [intros H; exact H |].
  destruct (after_first sep l) as [r |] eqn:E; [| intros H; exact H].
  intros H. apply (after_first_chars sep l r c E), IH, H.
Qed.

Lemma rsplit_head_chars (sep : ascii) (n : nat) (s : string) (c : ascii) :
  In c (list_ascii_of_string (rsplit_head sep n s)) ->
  In c (list_ascii_of_string s).
Proof.
  unfold rsplit_head. rewrite list_ascii_of_string_of_list_ascii.
  rewrite <- in_rev. intros H. apply cut_segments_chars in H.
  rewrite <- in_rev in H. exact H.
Qed.

(** A candidate is made of characters of the file name. *)
Lemma candidates_chars (filename cand : string) (c : ascii) :
  In cand (unique_candidates filename) ->
  In c (list_ascii_of_string cand) -> In c (list_ascii_of_string filename).
Proof.
  unfold unique_candidates. rewrite unique_of_first_seen, first_seen_In.
  unfold candidates_of, str_replace. rewrite !in_app_iff. intros H Hc.
  destruct H as [H | [H | [H | H]]].
  - destruct (str_in "_ch1_cells_mask.tif" filename); [| destruct H].
    destruct H as [E | []]. subst cand. apply replace_from_chars in Hc.
    exact Hc.
  - destruct (str_in "_cells_mask.tif" filename); [| destruct H].
    destruct H as [E | []]. subst cand. apply replace_from_chars in Hc.
    exact Hc.
  - destruct (str_in "_cell_mask.tif" filename); [| destruct H].
    destruct H as [E | []]. subst cand. apply replace_from_chars in Hc.
    exact Hc.
  - destruct H as [E | []]. subst cand. apply rsplit_head_chars in Hc.
    exact Hc.
Qed.

Lemma append_inj_l (a b c : string) :
  String.append a b = String.append a c -> b = c.
Proof.
  induction a as [| x a IH]; cbn [String.append]; intros H; [exact H |].
  inversion H. auto.
Qed.

Lemma os_path_join_inj (directory a b : string) :
  prefix "/" a = false -> prefix "/" b = false ->
  os_path_join directory a = os_path_join directory b -> a = b.
Proof.
  unfold os_path_join. intros Ha Hb. rewrite Ha, Hb.
  destruct (String.eqb directory ""); [intros H; exact H |].
  destruct (ends_with "/" directory); intros H; apply append_inj_l in H.
  - exact H.
  - inversion H. reflexivity.
Qed.

Lemma os_path_exists_entry_inv (directory : string) (listing : list string)
    (a : string) :
  (forall n, In n listing -> lacks "/" n) -> lacks "/" a ->
  os_path_exists directory listing (os_path_join directory a) = true ->
  In a listing.
Proof.
  intros Hl Ha H. unfold os_path_exists in H. apply existsb_exists in H.
  destruct H as [n [Hn E]]. apply String.eqb_eq in E.
  apply os_path_join_inj in E;
    [subst; exact Hn | apply lacks_prefix, Ha | apply lacks_prefix, Hl, Hn].
Qed.

Lemma lacks_append (c : ascii) (a b : string) :
  lacks c a -> lacks c b -> lacks c (String.append a b).
Proof.
  unfold lacks. rewrite list_ascii_of_string_app, in_app_iff. tauto.
Qed.

(** X21. No false match: in a directory whose name [glob] takes
    literally and whose entry names hold no slash,
    every triplet returned stands for an entry that is a recognized,
    non-hidden mask name, its identifier is one of that name's
    candidates, and the directory holds entries named exactly
    [<identifier>_C1_ROIs.zip] and [<identifier>_C2_ROIs.zip], which are
    the triplet's two ROI paths. *)
Theorem find_file_triplets_sound (directory : string)
    (listing : list string) (t : triplet) :
  plain_directory directory = true ->
  (forall n, In n listing -> lacks "/" n) ->
  In t (fst (find_file_triplets directory listing)) ->
  exists n : string,
    In n listing /\ prefix "." n = false /\ recognized n = true /\
    t_mask t = os_path_join directory n /\
    In (t_id t) (unique_candidates n) /\
    In (String.append (t_id t) "_C1_ROIs.zip") listing /\
    In (String.append (t_id t) "_C2_ROIs.zip") listing /\
    t_c1_roi t = os_path_join directory (String.append (t_id t) "_C1_ROIs.zip") /\
    t_c2_roi t = os_path_join directory (String.append (t_id t) "_C2_ROIs.zip").
Proof.
  intros _ Hl Ht. apply In_triplets in Ht. destruct Ht as (m & Hm & Ht).
  apply In_possible_masks in Hm. destruct Hm as (n & Hn & Hdot & Hrec & Em).
  subst m. unfold match_of in Ht. rewrite (basename_join _ _ (Hl n Hn)) in Ht.
  destruct (first_match_Some _ _ _ _ _ Ht)
    as (Et & Hboth & before & after & Hc & _).
  assert (Hid : In (t_id t) (unique_candidates n))
    by (rewrite Hc; apply in_or_app; right; left; reflexivity).
  assert (Hlack : lacks "/" (t_id t)).
  { intros Hs. apply (Hl n Hn). apply (candidates_chars n (t_id t) _ Hid Hs). }
  unfold both_exist, c1_path_of, c2_path_of in Hboth.
  apply andb_true_iff in Hboth. destruct Hboth as [H1 H2].
  apply os_path_exists_entry_inv in H1;
    [| exact Hl
     | apply lacks_append; [exact Hlack |];
       unfold lacks; cbn [list_ascii_of_string In]; intuition discriminate].
  apply os_path_exists_entry_inv in H2;
    [| exact Hl
     | apply lacks_append; [exact Hlack |];
       unfold lacks; cbn [list_ascii_of_string In]; intuition discriminate].
  exists n. rewrite Et. cbn [t_id t_mask t_c1_roi t_c2_roi].
  repeat split; assumption.
Qed.

Lemma find_file_triplets_sound_witness :
  exists n : string,
    In n ["s_cell_mask.tif"%string; "s_C1_ROIs.zip"%string;
          "s_C2_ROIs.zip"%string] /\
    prefix "." n = false /\ recognized n = true /\
    "/d/s_cell_mask.tif"%string = os_path_join "/d" n /\
    In "s"%string (unique_candidates n) /\
    In "s_C1_ROIs.zip"%string
      ["s_cell_mask.tif"%string; "s_C1_ROIs.zip"%string;
       "s_C2_ROIs.zip"%string] /\
    In "s_C2_ROIs.zip"%string
      ["s_cell_mask.tif"%string; "s_C1_ROIs.zip"%string;
       "s_C2_ROIs.zip"%string] /\
    "/d/s_C1_ROIs.zip"%string = os_path_join "/d" "s_C1_ROIs.zip" /\
    "/d/s_C2_ROIs.zip"%string = os_path_join "/d" "s_C2_ROIs.zip".
Proof.
  apply (find_file_triplets_sound "/d"
           ["s_cell_mask.tif"%string; "s_C1_ROIs.zip"%string;
            "s_C2_ROIs.zip"%string]
           {| t_id := "s"; t_mask := "/d/s_cell_mask.tif";
              t_c1_roi := "/d/s_C1_ROIs.zip";
              t_c2_roi := "/d/s_C2_ROIs.zip" |}).
  - reflexivity.
  - intros n [E | [E | [E | []]]]; subst n; unfold lacks;
      cbn [list_ascii_of_string In]; intuition discriminate.
  - vm_compute. left. reflexivity.
Defined.

(** ** Group labels *)

Lemma append_snoc (cur : string) (c : ascii) (s : string) :
  String.append (String.append cur (String c EmptyString)) s =
  String.append cur (String c s).
Proof. rewrite append_assoc. reflexivity. Qed.

Lemma split_from_lacks (sep : ascii) (cur a : string) :
  lacks sep a -> split_from sep cur a = [String.append cur a].
Proof.
  unfold lacks. revert cur. induction a as [| c a IH]; intros cur H;
    cbn [split_from].
  - rewrite append_empty_r. reflexivity.
  - cbn [list_ascii_of_string] in H.
    destruct (Ascii.eqb_spec c sep) as [E | N];
      [exfalso; apply H; left; exact E |].
    rewrite IH by (intros Hin; apply H; right; exact Hin).
    rewrite append_snoc. reflexivity.
Qed.

Lemma split_from_sep (sep : ascii) (cur a rest : string) :
  lacks sep a ->
  split_from sep cur (String.append a (String sep rest)) =
  String.append cur a :: split_from sep EmptyString rest.
Proof.
  unfold lacks. revert cur. induction a as [| c a IH]; intros cur H;
    cbn [String.append split_from].
  - rewrite Ascii.eqb_refl, append_empty_r. reflexivity.
  - cbn [list_ascii_of_string] in H.
    destruct (Ascii.eqb_spec c sep) as [E | N];
      [exfalso; apply H; left; exact E |].
    rewrite IH by (intros Hin; apply H; right; exact Hin).
    rewrite append_snoc. reflexivity.
Qed.

(** A string has no separator, or a first one. *)
Lemma first_sep (sep : ascii) (s : string) :
  lacks sep s \/
  exists a rest, lacks sep a /\ s = String.append a (String sep rest).
Proof.
  unfold lacks. induction s as [| c s IH].
  - left. intros [].
  - destruct (Ascii.eqb_spec c sep) as [E | N].
    + right. exists EmptyString, s. subst c. split; [intros [] | reflexivity].
    + destruct IH as [H | (a & rest & Ha & E)].
      * left. cbn [list_ascii_of_string]. intros [E | Hin]; [| exact (H Hin)].
        apply N. exact E.
      * right. exists (String c a), rest. split.
        -- cbn [list_ascii_of_string]. intros [E' | Hin]; [| exact (Ha Hin)].
           apply N. exact E'.
        -- rewrite E. reflexivity.
Qed.

Lemma group_of_one (a : string) : lacks "_" a -> group_of a = a.
Proof.
  intros H. unfold group_of, str_split. rewrite split_from_lacks by exact H.
  reflexivity.
Qed.

Lemma group_of_two (a b : string) :
  lacks "_" a -> lacks "_" b ->
  group_of (String.append a (String "_" b)) = String.append a (String "_" b).
Proof.
  intros Ha Hb. unfold group_of, str_split.
  rewrite split_from_sep by exact Ha. rewrite split_from_lacks by exact Hb.
  reflexivity.
Qed.

Lemma group_of_more (a b rest : string) :
  lacks "_" a -> lacks "_" b ->
  group_of (String.append a (String "_" (String.append b (String "_" rest)))) =
  String.append a (String "_" b).
Proof.
  intros Ha Hb. unfold group_of, str_split.
  rewrite split_from_sep by exact Ha. rewrite split_from_sep by exact Hb.
  reflexivity.
Qed.

Lemma prefix_append (p r : string) : prefix p (String.append p r) = true.
Proof.
  induction p as [| a p IH]; cbn [String.append prefix];
    [destruct r; reflexivity |].
  destruct (ascii_dec a a); [exact IH | congruence].
Qed.

(** X22. The group of an identifier is its first two underscore-separated
    tokens: an identifier with fewer than two underscores is its own
    group, and of a longer one everything from the second underscore on
    is dropped. The group is a prefix of the identifier, and taking the
    group of a group changes nothing. *)
Theorem group_of_first_two_tokens (x : string) :
  (forall a b rest : string,
      lacks "_" a -> lacks "_" b ->
      x = String.append a (String "_" (String.append b (String "_" rest))) ->
      group_of x = String.append a (String "_" b)) /\
  (forall a b : string,
      lacks "_" a -> lacks "_" b ->
      x = a \/ x = String.append a (String "_" b) -> group_of x = x) /\
  prefix (group_of x) x = true /\
  group_of (group_of x) = group_of x.
Proof.
  split; [intros a b rest Ha Hb E; subst x; apply group_of_more; assumption |].
  split.
  { intros a b Ha Hb [E | E]; subst x;
      [apply group_of_one | apply group_of_two]; assumption. }
  destruct (first_sep "_" x) as [Hx | (a & r & Ha & Ex)].
  - rewrite (group_of_one x Hx). split; [apply prefix_refl |].
    apply group_of_one, Hx.
  - destruct (first_sep "_" r) as [Hr | (b & r' & Hb & Er)]; subst x.
    + rewrite (group_of_two a r Ha Hr). split; [apply prefix_refl |].
      apply group_of_two; assumption.
    + subst r. rewrite (group_of_more a b r' Ha Hb). split.
      * replace (String.append a
                   (String "_" (String.append b (String "_" r'))))
          with (String.append (String.append a (String "_" b)) (String "_" r'))
          by (rewrite append_assoc; cbn [String.append];
              rewrite ?append_assoc; reflexivity).
        apply prefix_append.
      * apply group_of_two; assumption.
Qed.

(** X23. The labels of the two renamed groups: every identifier that
    starts with [Saline_Gastro_] is labelled [HSA-Saline], every one that
    starts with [DI_Gastro_] is labelled [HSA_CLAAAV]; an identifier
    whose group is neither keeps its group as label; and no sample is
    ever labelled [Saline_Gastro] or [DI_Gastro]. *)
Theorem group_label_renaming (x : string) :
  (forall rest : string,
      group_label (String.append "Saline_Gastro_" rest) = "HSA-Saline"%string /\
      group_label (String.append "DI_Gastro_" rest) = "HSA_CLAAAV"%string) /\
  (group_of x <> "Saline_Gastro"%string -> group_of x <> "DI_Gastro"%string ->
   group_label x = group_of x) /\
  group_label x <> "Saline_Gastro"%string /\
  group_label x <> "DI_Gastro"%string.
Proof.
  split; [intros rest; split; reflexivity |].
  unfold group_label, series_replace, group_mapping. cbn [find fst snd].
  destruct (String.eqb_spec "Saline_Gastro" (group_of x)) as [E1 | N1].
  - split; [intros H; exfalso; apply H; symmetry; exact E1 |].
    split; discriminate.
  - destruct (String.eqb_spec "DI_Gastro" (group_of x)) as [E2 | N2].
    + split; [intros _ H; exfalso; apply H; symmetry; exact E2 |].
      split; discriminate.
    + split; [reflexivity |]. split; intros E; [apply N1 | apply N2];
        symmetry; exact E.
Qed.

(** ** Spots per cell, again *)

Lemma count_if_le {A : Type} (f g : A -> bool) (l : list A) :
  (forall a, f a = true -> g a = true) -> count_if f l <= count_if g l.
Proof.
  intros H. induction l as [| a l IH]; [reflexivity |].
  rewrite !count_if_cons. specialize (H a).
  destruct (f a) eqn:Ef, (g a) eqn:Eg; [lia | | lia | lia].
  specialize (H eq_refl). discriminate.
Qed.

Lemma lands_in_radius (border : bool) (mask : array2 Z) (r1 r2 : Z)
    (coord : point) :
  0 <= r1 -> r1 <= r2 ->
  lands_in border mask r2 coord = true -> lands_in border mask r1 coord = true.
Proof.
  intros H1 H2. rewrite !lands_in_pixel, !andb_true_iff. intros [Hb Hp].
  split; [exact Hb |].
  apply (eroded_pixel_incl border _ _ _ _ _ (disk_offsets_incl r1 r2 H1 H2) Hp).
Qed.

Lemma Qdiv_le_compat (a b c : Z) :
  0 < c -> a <= b -> (inject_Z a / inject_Z c <= inject_Z b / inject_Z c)%Q.
Proof.
  intros Hc Hab. unfold Qdiv. apply Qmult_le_compat_r.
  - rewrite <- Zle_Qle. exact Hab.
  - apply Qinv_le_0_compat. change 0%Q with (inject_Z 0).
    rewrite <- Zle_Qle. lia.
Qed.

Lemma Qdiv_nonneg (a c : Z) :
  0 < c -> 0 <= a -> (0 <= inject_Z a / inject_Z c)%Q.
Proof.
  intros Hc Ha. unfold Qdiv. apply Qmult_le_0_compat.
  - change 0%Q with (inject_Z 0). rewrite <- Zle_Qle. exact Ha.
  - apply Qinv_le_0_compat. change 0%Q with (inject_Z 0).
    rewrite <- Zle_Qle. lia.
Qed.

(** X24. From a sample to its ratios, for a deep radius greater than the
    shallow one: the record is made and its four ratios are computed,
    none is negative, deep-inside per cell is at most inside per cell,
    which is at most channel-2 total per cell; and when every pixel of
    the mask is 0 all four are 0. *)
Theorem sample_ratios_ordered (border : bool) (std_pixels deep_pixels : Z)
    (name : string) (mask : array2 Z) (c1_coords c2_coords : list point) :
  0 <= std_pixels -> std_pixels < deep_pixels ->
  exists (r : SampleResult) (q : Ratios),
    process_sample border std_pixels deep_pixels name mask c1_coords c2_coords
    = Some r /\
    calculations r = Some q /\
    (0 <= Ch1_per_Cell q)%Q /\
    (0 <= Ch2_Deep_Inside_per_Cell q)%Q /\
    (Ch2_Deep_Inside_per_Cell q <= Ch2_Inside_per_Cell q)%Q /\
    (Ch2_Inside_per_Cell q <= Ch2_Total_per_Cell q)%Q /\
    ((forall v, In v (concat mask) -> v = 0) ->
     Ch1_per_Cell q = 0%Q /\ Ch2_Total_per_Cell q = 0%Q /\
     Ch2_Inside_per_Cell q = 0%Q /\ Ch2_Deep_Inside_per_Cell q = 0%Q).
Proof.
  intros H1 H2. rewrite process_sample_closed. eexists. eexists.
  split; [reflexivity |]. unfold calculations.
  cbn [Cell_Count Ch1_Spots Ch2_Spots_Total Ch2_Inside Ch2_Deep_Inside].
  rewrite !per_cell_value. split; [reflexivity |].
  cbn [Ch1_per_Cell Ch2_Total_per_Cell Ch2_Inside_per_Cell
       Ch2_Deep_Inside_per_Cell].
  pose proof (count_if_bounds (lands_in border mask std_pixels) c2_coords)
    as [Hi0 Hi1].
  pose proof (count_if_bounds (lands_in border mask deep_pixels) c2_coords)
    as [Hd0 _].
  pose proof (count_if_le (lands_in border mask deep_pixels)
                (lands_in border mask std_pixels) c2_coords
                (fun p => lands_in_radius border mask std_pixels deep_pixels p
                            H1 (Z.lt_le_incl _ _ H2))) as Hdi.
  destruct (0 <? cell_count_of mask) eqn:Hc.
  - apply Z.ltb_lt in Hc.
    split; [apply Qdiv_nonneg; [exact Hc | lia] |].
    split; [apply Qdiv_nonneg; assumption |].
    split; [apply Qdiv_le_compat; assumption |].
    split; [apply Qdiv_le_compat; assumption |].
    intros Hz. apply cell_count_of_zero in Hz. lia.
  - repeat split; try apply Qle_refl.
Qed.

Lemma sample_ratios_ordered_witness :
  exists (r : SampleResult) (q : Ratios),
    process_sample true erosion_pixels deep_erosion_pixels "s"
      [[3; 3]; [3; 0]] [(0, 0)%Q] [(0, 0)%Q; (1, 1)%Q] = Some r /\
    calculations r = Some q /\
    (0 <= Ch1_per_Cell q)%Q /\
    (0 <= Ch2_Deep_Inside_per_Cell q)%Q /\
    (Ch2_Deep_Inside_per_Cell q <= Ch2_Inside_per_Cell q)%Q /\
    (Ch2_Inside_per_Cell q <= Ch2_Total_per_Cell q)%Q /\
    ((forall v, In v (concat [[3; 3]; [3; 0]]) -> v = 0) ->
     Ch1_per_Cell q = 0%Q /\ Ch2_Total_per_Cell q = 0%Q /\
     Ch2_Inside_per_Cell q = 0%Q /\ Ch2_Deep_Inside_per_Cell q = 0%Q).
Proof.
  apply (sample_ratios_ordered true erosion_pixels deep_erosion_pixels "s"
           [[3; 3]; [3; 0]] [(0, 0)%Q] [(0, 0)%Q; (1, 1)%Q]);
    unfold erosion_pixels, deep_erosion_pixels; lia.
Defined.

(** ** Inspecting the first ROI file *)

Lemma inspect_rois_length (roi_name roi_type : ImagejRoi -> string)
    (rois : list ImagejRoi) (i : nat) :
  (length (fst (inspect_rois roi_name roi_type i rois)) <= length rois)%nat.
Proof.
  revert i. induction rois as [| roi rest IH]; intros i;
    cbn [inspect_rois]; [cbn; lia |].
  destruct (coordinates roi) as [pts | e]; [| cbn; lia].
  specialize (IH (S i)).
  destruct (inspect_rois roi_name roi_type (S i) rest) as [lines err].
  cbn [fst length] in *. lia.
Qed.

(** X25. The inspection prints one line and reads no file when the glob
    for [*_ROIs.zip] finds nothing. Otherwise it looks at the first path
    found only: what it prints starts with the line that names it, ends
    with the separator, has between one and seven lines in between, and
    is the same for any two readers that agree on that one file. *)
Theorem inspect_first_roi_frame (fromfile : string -> result roi_file)
    (roi_name roi_type : ImagejRoi -> string) (directory : string)
    (listing : list string) :
  (glob_suffix directory listing "_ROIs.zip" = [] ->
   forall fromfile' : string -> result roi_file,
     inspect_first_roi fromfile' roi_name roi_type directory listing =
     ["No ROI zip files found for inspection."%string]) /\
  (forall (sample_file : string) (others : list string),
      glob_suffix directory listing "_ROIs.zip" = sample_file :: others ->
      (exists body : list string,
          inspect_first_roi fromfile roi_name roi_type directory listing =
          ("--- Inspecting Sample ROI File: "
           ++ os_path_basename sample_file ++ " ---")%string
          :: body ++ [separator_line] /\
          (1 <= length body <= 7)%nat) /\
      (forall fromfile' : string -> result roi_file,
          fromfile' sample_file = fromfile sample_file ->
          inspect_first_roi fromfile' roi_name roi_type directory listing =
          inspect_first_roi fromfile roi_name roi_type directory listing)).
Proof.
  split.
  - intros H fromfile'. unfold inspect_first_roi. rewrite H. reflexivity.
  - intros sample_file others Hg. unfold inspect_first_roi. rewrite Hg.
    split; [| intros fromfile' E; rewrite E; reflexivity].
    destruct (fromfile sample_file) as [f | e].
    + set (rois := match f with Single roi => [roi] | Many rois => rois end).
      pose proof (inspect_rois_length roi_name roi_type (firstn 5 rois) 0)
        as Hlen.
      pose proof (firstn_le_length 5 rois) as Hfirst.
      assert (Hfive : (length (firstn 5 rois) <= 5)%nat).
      { rewrite length_firstn. lia. }
      destruct (inspect_rois roi_name roi_type 0 (firstn 5 rois))
        as [lines [e |]]; cbn [fst] in Hlen.
      * eexists. split; [reflexivity |]. cbn [length].
        rewrite length_app. cbn [length]. lia.
      * eexists. split; [reflexivity |]. cbn [length].
        rewrite length_app. destruct (5 <? length rois)%nat; cbn [length]; lia.
    + eexists. split; [reflexivity |]. cbn [length]. lia.
Qed.

Lemma inspect_rois_decoded (roi_name roi_type : ImagejRoi -> string)
    (rois : list ImagejRoi) (i : nat) :
  (forall roi, In roi rois -> exists pts, coordinates roi = Ok pts) ->
  inspect_rois roi_name roi_type i rois =
  (map (fun ir => roi_line roi_name roi_type (fst ir) (snd ir)
                    (decoded (snd ir)))
     (combine (seq i (length rois)) rois), None).
Proof.
  revert i. induction rois as [| roi rest IH]; intros i H;
    cbn [inspect_rois length seq combine map]; [reflexivity |].
  destruct (H roi (or_introl eq_refl)) as [pts Hp].
  assert (Hd : decoded roi = pts) by (unfold decoded; rewrite Hp; reflexivity).
  rewrite (IH (S i)) by (intros r Hr; apply H; right; exact Hr).
  cbn [fst snd]. rewrite Hp, Hd. reflexivity.
Qed.

(** X26. Only the first five ROIs of the file are decoded: when they
    decode, the inspection prints the count of all the ROIs, one line for
    each of the first five, numbered from 1, and, when there are more
    than five, the line that says how many more; whatever the ROIs after
    the fifth are, nothing about them is reported. *)
Theorem inspect_first_roi_first_five (fromfile : string -> result roi_file)
    (roi_name roi_type : ImagejRoi -> string) (directory : string)
    (listing : list string) (sample_file : string) (others : list string)
    (rois : list ImagejRoi) :
  glob_suffix directory listing "_ROIs.zip" = sample_file :: others ->
  fromfile sample_file = Ok (Many rois) ->
  (forall roi, In roi (firstn 5 rois) -> exists pts, coordinates roi = Ok pts) ->
  inspect_first_roi fromfile roi_name roi_type directory listing =
  ("--- Inspecting Sample ROI File: "
   ++ os_path_basename sample_file ++ " ---")%string
  :: ("Number of ROI entries in zip: " ++ show_nat (length rois))%string
  :: map (fun ir => roi_line roi_name roi_type (fst ir) (snd ir)
                      (decoded (snd ir)))
       (combine (seq 0 (Nat.min 5 (length rois))) (firstn 5 rois))
  ++ (if (5 <? length rois)%nat
      then [("  ... and " ++ show_nat (length rois - 5) ++ " more.")%string]
      else [])
  ++ [separator_line].
Proof.
  intros Hg Hf Hok. unfold inspect_first_roi. rewrite Hg, Hf.
  rewrite (inspect_rois_decoded roi_name roi_type (firstn 5 rois) 0 Hok).
  rewrite length_firstn. cbn [app]. rewrite <- app_assoc. reflexivity.
Qed.

Lemma inspect_first_roi_first_five_witness :
  inspect_first_roi
    (fun _ => Ok (Many [ {| coordinates := Ok (Arr2 [(1, 2)%Q; (3, 4)%Q]) |} ]))
    (fun _ => "0001-0002"%string) (fun _ => "ROI_TYPE.POINT"%string)
    "/d" ["s_cell_mask.tif"%string; "s_C1_ROIs.zip"%string] =
  ["--- Inspecting Sample ROI File: s_C1_ROIs.zip ---"%string;
   "Number of ROI entries in zip: 1"%string;
   "  ROI 1: Name='0001-0002', Type=ROI_TYPE.POINT, Coords Shape=(2, 2)"%string;
   separator_line].
Proof.
  apply (inspect_first_roi_first_five
           (fun _ => Ok (Many [ {| coordinates :=
                                     Ok (Arr2 [(1, 2)%Q; (3, 4)%Q]) |} ]))
           (fun _ => "0001-0002"%string) (fun _ => "ROI_TYPE.POINT"%string)
           "/d" ["s_cell_mask.tif"%string; "s_C1_ROIs.zip"%string]
           "/d/s_C1_ROIs.zip" []
           [ {| coordinates := Ok (Arr2 [(1, 2)%Q; (3, 4)%Q]) |} ]).
  - reflexivity.
  - reflexivity.
  - intros roi [E | []]. subst roi. eexists. reflexivity.
Defined.

